(** * pcpd: the mapping store, the identifier allocator and the packet macros

    A shallow embedding of [api/pcp.c], [pcpd/packets_pcp.h] and the
    daemon's [process_map_request], followed by the properties of the
    mapping lifecycle that the specification states about them.

    Conventions.
    - C integers are values of [Z]; every conversion to a fixed-width type is
      written out ([C.int], [C.u_int32_t], ...).
    - The Apteryx database is a finite map from paths to stored values.
    - Every call of [time (NULL)] is an input of the operation that makes
      it. [pcp_mapping_add] calls it twice, so it takes two readings, [now]
      and [now']; the other operations call it once.
    - The code is read as single-threaded; [callback_lock] is not modelled. *)

From Stdlib Require Import ZArith Lia List Sorted.
From stdpp Require Import base gmap strings pretty list fin_maps fin_sets.

Open Scope Z_scope.

(** ** Fixed-width C integers *)
Module C.

Definition INT_MAX : Z := 2147483647.

(** Conversion to [int] / [int32_t]: two's-complement wrap-around. *)
Definition int (z : Z) : Z := (z + 2147483648) mod 4294967296 - 2147483648.

Definition u_int32_t (z : Z) : Z := z mod 4294967296.
Definition u_int16_t (z : Z) : Z := z mod 65536.
Definition u_int8_t (z : Z) : Z := z mod 256.

(** [a % b] on [int]: the remainder of the division that truncates
    toward zero. *)
Definition rem (a b : Z) : Z := Z.rem a b.

Definition of_bool (b : bool) : Z := if b then 1 else 0.

(** What a call does: it returns, or it reads through a null pointer. *)
Inductive outcome (A : Type) : Type :=
| Returns (a : A)
| NullDereference.
Arguments Returns {A} a.
Arguments NullDereference {A}.

Definition bind {A B : Type} (c : outcome A) (k : A → outcome B) : outcome B :=
  match c with
  | Returns a => k a
  | NullDereference => NullDereference
  end.

(** [p->...]: [None] is the null pointer. *)
Definition deref {A : Type} (p : option A) : outcome A :=
  match p with
  | Some a => Returns a
  | None => NullDereference
  end.

(** [!p] *)
Definition is_null {A : Type} (p : option A) : bool :=
  match p with
  | Some _ => false
  | None => true
  end.

(** [a || b]: [b] is evaluated only when [a] is false. *)
Definition or_else (a b : outcome bool) : outcome bool :=
  bind a (λ x, if x then Returns true else b).

End C.

(** The sequencing of calls, in stdpp's monad notation. *)
#[global] Instance outcome_bind : MBind C.outcome := λ A B k c, C.bind c k.

(** ** The Apteryx database *)
Module Apteryx.

(** The two directories pcp.c works in: [CONFIG_PATH] is "/pcp/config" and
    [MAPPING_PATH id] is "/pcp/mappings/<id>". *)
Inductive dir := CONFIG_PATH | MAPPING_PATH (id : Z).

#[global] Instance dir_eq_dec : EqDecision dir.
Proof. solve_decision. Defined.

#[global] Instance dir_countable : Countable dir.
Proof.
  refine (inj_countable'
            (λ d, match d with CONFIG_PATH => None | MAPPING_PATH id => Some id end)
            (λ o, match o with None => CONFIG_PATH | Some id => MAPPING_PATH id end) _).
  by intros [].
Defined.

(** A full path: the directory itself ([None]) or a key below it. *)
Definition path : Type := dir * option string.

(** What a path holds. Apteryx stores text; the text written by
    [apteryx_set_int] is kept as the number it prints, the text written by
    [apteryx_set_ipv6_addr] as the address [inet_ntop] printed. *)
Inductive value := VInt (z : Z) | VAddr (a : Z) | VStr (s : string).

Abbreviation db := (gmap path value).

(** Modelled from the spec: the persistence interface (the external Apteryx
    library) is a key-path based get/set of integers and strings, a search
    returning the paths below a prefix, and a prune of a subtree. The
    operations always succeed here: the store is in memory. *)
Definition apteryx_set (d : db) (p : dir) (key : option string) (v : value) : db :=
  <[(p, key) := v]> d.

Definition apteryx_get_string (d : db) (p : dir) (key : option string) : option value :=
  d !! (p, key).

(** [apteryx_set_int] takes an [int32_t]. *)
Definition apteryx_set_int (d : db) (p : dir) (key : string) (z : Z) : db :=
  <[(p, Some key) := VInt (C.int z)]> d.

(** [apteryx_get_int] answers -1 for a path that holds no number. *)
Definition apteryx_get_int (d : db) (p : dir) (key : string) : Z :=
  match d !! (p, Some key) with
  | Some (VInt z) => z
  | _ => -1
  end.

(** [apteryx_prune] of one mapping's (or the configuration's) subtree. *)
Definition apteryx_prune (d : db) (p : dir) : db :=
  filter (λ kv, kv.1.1 ≠ p) d.

(** [apteryx_prune (MAPPING_PATH)]: every mapping subtree goes. *)
Definition apteryx_prune_mappings (d : db) : db :=
  filter (λ kv, kv.1.1 = CONFIG_PATH) d.

Definition mapping_id_of (p : path) : option Z :=
  match p.1 with
  | MAPPING_PATH id => Some id
  | CONFIG_PATH => None
  end.

(** [apteryx_search (MAPPING_PATH "/")]: the children of "/pcp/mappings/",
    one per identifier that has anything stored below it, in the order the
    database hands them out. *)
Definition apteryx_search_mappings (d : db) : list Z :=
  elements (set_omap mapping_id_of (dom d) : gset Z).

End Apteryx.

(** ** GLib lists *)
Module GLib.

(** [g_list_insert_sorted]: the new element goes in front of the first
    element it does not compare greater than. *)
Fixpoint g_list_insert_sorted {A : Type} (l : list A) (data : A)
    (func : A → A → Z) : list A :=
  match l with
  | [] => [data]
  | x :: l' =>
      if func data x >? 0 then x :: g_list_insert_sorted l' data func
      else data :: x :: l'
  end.

End GLib.

(** ** api/pcp.c *)
Module Pcp.
Import Apteryx.

(** *** Keys *)
Definition INDEX_KEY : string := "index".
Definition MAPPING_NONCE_1_KEY : string := "mapping_nonce_1".
Definition MAPPING_NONCE_2_KEY : string := "mapping_nonce_2".
Definition MAPPING_NONCE_3_KEY : string := "mapping_nonce_3".
Definition INTERNAL_IP_KEY : string := "internal_ip".
Definition INTERNAL_PORT_KEY : string := "internal_port".
Definition EXTERNAL_IP_KEY : string := "external_ip".
Definition EXTERNAL_PORT_KEY : string := "external_port".
Definition LIFETIME_KEY : string := "lifetime".
Definition START_OF_LIFE_KEY : string := "start_of_life".
Definition END_OF_LIFE_KEY : string := "end_of_life".
Definition OPCODE_KEY : string := "opcode".
Definition PROTOCOL_KEY : string := "protocol".

Definition PCP_INITIALIZED_KEY : string := "pcp_initialized".
Definition PCP_ENABLED_KEY : string := "pcp_enabled".
Definition MAP_SUPPORT_KEY : string := "map_support".
Definition PEER_SUPPORT_KEY : string := "peer_support".
Definition THIRD_PARTY_SUPPORT_KEY : string := "third_party_support".
Definition PROXY_SUPPORT_KEY : string := "proxy_support".
Definition UPNP_IGD_PCP_IWF_SUPPORT_KEY : string := "upnp_igd_pcp_iwf_support".
Definition MIN_MAPPING_LIFETIME_KEY : string := "min_mapping_lifetime".
Definition MAX_MAPPING_LIFETIME_KEY : string := "max_mapping_lifetime".
Definition PREFER_FAILURE_REQ_RATE_LIMIT_KEY : string := "prefer_failure_req_rate_limit".
Definition STARTUP_EPOCH_TIME_KEY : string := "startup_epoch_time".

(** *** Addresses *)

(** A [struct in6_addr], as the 128-bit number its sixteen bytes spell. *)
Definition in6_addr : Type := Z.

Definition apteryx_set_ipv6_addr (d : db) (p : dir) (key : string) (a : in6_addr) : db :=
  apteryx_set d p (Some key) (VAddr a).

(** The C function returns its local [value] untouched when the path holds
    nothing; that indeterminate result is 0 here. *)
Definition apteryx_get_ipv6_addr (d : db) (p : dir) (key : string) : in6_addr :=
  match apteryx_get_string d p (Some key) with
  | Some (VAddr a) => a
  | _ => 0
  end.

(** *** Mappings *)

(** [struct pcp_mapping_s] (declared in libpcp.h): the field widths are
    those of the arguments of [pcp_mapping_add] and of the results of
    [pcp_mapping_remaining_lifetime_get]. *)
Record pcp_mapping := {
  path : dir;
  index : Z;                      (* int *)
  mapping_nonce : Z * Z * Z;      (* u_int32_t [3] *)
  internal_ip : in6_addr;
  internal_port : Z;              (* u_int16_t *)
  external_ip : in6_addr;
  external_port : Z;              (* u_int16_t *)
  lifetime : Z;                   (* u_int32_t *)
  start_of_life : Z;              (* u_int32_t *)
  end_of_life : Z;                (* u_int32_t *)
  opcode : Z;                     (* u_int8_t *)
  protocol : Z                    (* u_int8_t *)
}.

Definition pcp_mapping_find (d : db) (mapping_id : Z) : option pcp_mapping :=
  let p := MAPPING_PATH mapping_id in
  match apteryx_get_string d p None with
  | None => None
  | Some _ =>
      Some {|
        path := p;
        index := mapping_id;
        mapping_nonce :=
          (C.u_int32_t (apteryx_get_int d p MAPPING_NONCE_1_KEY),
           C.u_int32_t (apteryx_get_int d p MAPPING_NONCE_2_KEY),
           C.u_int32_t (apteryx_get_int d p MAPPING_NONCE_3_KEY));
        internal_ip := apteryx_get_ipv6_addr d p INTERNAL_IP_KEY;
        internal_port := C.u_int16_t (apteryx_get_int d p INTERNAL_PORT_KEY);
        external_ip := apteryx_get_ipv6_addr d p EXTERNAL_IP_KEY;
        external_port := C.u_int16_t (apteryx_get_int d p EXTERNAL_PORT_KEY);
        lifetime := C.u_int32_t (apteryx_get_int d p LIFETIME_KEY);
        start_of_life := C.u_int32_t (apteryx_get_int d p START_OF_LIFE_KEY);
        end_of_life := C.u_int32_t (apteryx_get_int d p END_OF_LIFE_KEY);
        opcode := C.u_int8_t (apteryx_get_int d p OPCODE_KEY);
        protocol := C.u_int8_t (apteryx_get_int d p PROTOCOL_KEY)
      |}
  end.

(** *** The identifier allocator *)

Definition current_highest_index (d : db) : Z :=
  fold_left
    (λ max query,
       let index_id := apteryx_get_int d (MAPPING_PATH query) INDEX_KEY in
       if index_id >? max then index_id else max)
    (apteryx_search_mappings d) 0.

(** *** The mapping store *)

(** The run of [apteryx_set] calls that ends [pcp_mapping_add]. The clock
    is read once for the start of life ([now]) and once more for the end of
    life ([now']). *)
Definition pcp_mapping_store (d : db) (index : Z) (mapping_nonce : Z * Z * Z)
    (internal_ip : in6_addr) (internal_port : Z)
    (external_ip : in6_addr) (external_port : Z)
    (lifetime : Z) (opcode protocol : Z) (now now' : Z) : db :=
  let p := MAPPING_PATH index in
  let d := apteryx_set_int d p INDEX_KEY index in
  let d := apteryx_set_int d p MAPPING_NONCE_1_KEY mapping_nonce.1.1 in
  let d := apteryx_set_int d p MAPPING_NONCE_2_KEY mapping_nonce.1.2 in
  let d := apteryx_set_int d p MAPPING_NONCE_3_KEY mapping_nonce.2 in
  let d := apteryx_set_ipv6_addr d p INTERNAL_IP_KEY internal_ip in
  let d := apteryx_set_int d p INTERNAL_PORT_KEY internal_port in
  let d := apteryx_set_ipv6_addr d p EXTERNAL_IP_KEY external_ip in
  let d := apteryx_set_int d p EXTERNAL_PORT_KEY external_port in
  let d := apteryx_set_int d p LIFETIME_KEY lifetime in
  let d := apteryx_set_int d p START_OF_LIFE_KEY now in
  let d := apteryx_set_int d p END_OF_LIFE_KEY (now' + lifetime) in
  let d := apteryx_set_int d p OPCODE_KEY opcode in
  let d := apteryx_set_int d p PROTOCOL_KEY protocol in
  apteryx_set d p None (VStr "-").

Section Build.

(** [MAXIMUM_MAPPING_ID] is a build-time constant; it is [INT_MAX] unless
    the build defines it. *)
Variable MAXIMUM_MAPPING_ID : Z.

Definition next_highest_id (d : db) : Z :=
  let max_index := current_highest_index d in
  let max_index := C.int (max_index + 11) in
  let index := C.int (max_index - C.rem max_index 10) in
  if index >? MAXIMUM_MAPPING_ID then -1 else index.

Definition next_mapping_id (d : db) : Z := next_highest_id d.

(** The result is the returned [bool] and the database the call leaves;
    [now] and [now'] are the two readings of the clock, in the order the
    function takes them. *)
Definition pcp_mapping_add (now now' : Z) (d : db) (index : Z) (mapping_nonce : Z * Z * Z)
    (internal_ip : in6_addr) (internal_port : Z)
    (external_ip : in6_addr) (external_port : Z)
    (lifetime : Z) (opcode protocol : Z) : bool * db :=
  let allocated := if index =? -1 then next_mapping_id d else index in
  if (index =? -1) && (allocated <? 0) then (false, d)
  else
    match pcp_mapping_find d allocated with
    | Some _ => (false, d)
    | None =>
        (true,
         pcp_mapping_store d allocated mapping_nonce internal_ip internal_port
           external_ip external_port lifetime opcode protocol now now')
    end.

End Build.

Definition pcp_mapping_refresh_lifetime (now : Z) (d : db)
    (index new_lifetime new_end_of_life : Z) : bool * db :=
  let expected := C.u_int32_t (now + new_lifetime) in
  if (new_end_of_life <? C.u_int32_t (expected - 3))
     || (new_end_of_life >? C.u_int32_t (expected + 3))
  then (false, d)
  else
    match pcp_mapping_find d index with
    | None => (false, d)
    | Some _ =>
        let p := MAPPING_PATH index in
        let d := apteryx_set_int d p LIFETIME_KEY new_lifetime in
        let d := apteryx_set_int d p END_OF_LIFE_KEY new_end_of_life in
        (true, d)
    end.

Definition pcp_mapping_delete (d : db) (index : Z) : bool * db :=
  match pcp_mapping_find d index with
  | None => (false, d)
  | Some _ => (true, apteryx_prune d (MAPPING_PATH index))
  end.

Definition pcp_mapping_deleteall (d : db) : bool * db :=
  (true, apteryx_prune_mappings d).

Definition mapping_index_cmp (a b : pcp_mapping) : Z :=
  C.int (index a - index b).

(** The identifier is read off the last component of each path found. *)
Definition pcp_mapping_getall (d : db) : list pcp_mapping :=
  fold_left
    (λ mappings id,
       match pcp_mapping_find d id with
       | Some mapping => GLib.g_list_insert_sorted mappings mapping mapping_index_cmp
       | None => mappings
       end)
    (apteryx_search_mappings d) [].

(** A [pcp_mapping] handle is a pointer: [None] is [NULL], and every
    [mapping->end_of_life] reads through it. This is
    [mapping->end_of_life <= now], the second operand of the test of
    [pcp_mapping_remaining_lifetime_get]. *)
Definition end_of_life_reached (now : Z) (mapping : option pcp_mapping) : C.outcome bool :=
  m ← C.deref mapping; C.Returns (end_of_life m <=? now).

Definition pcp_mapping_remaining_lifetime_get (time : Z)
    (mapping : option pcp_mapping) : C.outcome Z :=
  let now := C.u_int32_t time in
  expired ← C.or_else (C.Returns (C.is_null mapping)) (end_of_life_reached now mapping);
  if expired : bool then C.Returns 0
  else m ← C.deref mapping; C.Returns (C.u_int32_t (end_of_life m - now)).

(** *** Configuration *)

Definition pcp_initialized_set (d : db) (enable : bool) : db :=
  apteryx_set_int d CONFIG_PATH PCP_INITIALIZED_KEY (C.of_bool enable).
Definition pcp_initialized_get (d : db) : bool :=
  apteryx_get_int d CONFIG_PATH PCP_INITIALIZED_KEY =? 1.

Definition pcp_enabled_set (d : db) (enable : bool) : db :=
  apteryx_set_int d CONFIG_PATH PCP_ENABLED_KEY (C.of_bool enable).
Definition pcp_enabled_get (d : db) : bool :=
  apteryx_get_int d CONFIG_PATH PCP_ENABLED_KEY =? 1.

Definition map_support_set (d : db) (enable : bool) : db :=
  apteryx_set_int d CONFIG_PATH MAP_SUPPORT_KEY (C.of_bool enable).
Definition map_support_get (d : db) : bool :=
  apteryx_get_int d CONFIG_PATH MAP_SUPPORT_KEY =? 1.

Definition peer_support_set (d : db) (enable : bool) : db :=
  apteryx_set_int d CONFIG_PATH PEER_SUPPORT_KEY (C.of_bool enable).
Definition peer_support_get (d : db) : bool :=
  apteryx_get_int d CONFIG_PATH PEER_SUPPORT_KEY =? 1.

Definition third_party_support_set (d : db) (enable : bool) : db :=
  apteryx_set_int d CONFIG_PATH THIRD_PARTY_SUPPORT_KEY (C.of_bool enable).
Definition third_party_support_get (d : db) : bool :=
  apteryx_get_int d CONFIG_PATH THIRD_PARTY_SUPPORT_KEY =? 1.

Definition proxy_support_set (d : db) (enable : bool) : db :=
  apteryx_set_int d CONFIG_PATH PROXY_SUPPORT_KEY (C.of_bool enable).
Definition proxy_support_get (d : db) : bool :=
  apteryx_get_int d CONFIG_PATH PROXY_SUPPORT_KEY =? 1.

Definition upnp_igd_pcp_iwf_support_set (d : db) (enable : bool) : db :=
  apteryx_set_int d CONFIG_PATH UPNP_IGD_PCP_IWF_SUPPORT_KEY (C.of_bool enable).
Definition upnp_igd_pcp_iwf_support_get (d : db) : bool :=
  apteryx_get_int d CONFIG_PATH UPNP_IGD_PCP_IWF_SUPPORT_KEY =? 1.

Definition min_mapping_lifetime_set (d : db) (lifetime : Z) : db :=
  apteryx_set_int d CONFIG_PATH MIN_MAPPING_LIFETIME_KEY lifetime.
Definition min_mapping_lifetime_get (d : db) : Z :=
  C.u_int32_t (apteryx_get_int d CONFIG_PATH MIN_MAPPING_LIFETIME_KEY).

Definition max_mapping_lifetime_set (d : db) (lifetime : Z) : db :=
  apteryx_set_int d CONFIG_PATH MAX_MAPPING_LIFETIME_KEY lifetime.
Definition max_mapping_lifetime_get (d : db) : Z :=
  C.u_int32_t (apteryx_get_int d CONFIG_PATH MAX_MAPPING_LIFETIME_KEY).

Definition prefer_failure_req_rate_limit_set (d : db) (rate : Z) : db :=
  apteryx_set_int d CONFIG_PATH PREFER_FAILURE_REQ_RATE_LIMIT_KEY rate.
Definition prefer_failure_req_rate_limit_get (d : db) : Z :=
  C.u_int32_t (apteryx_get_int d CONFIG_PATH PREFER_FAILURE_REQ_RATE_LIMIT_KEY).

Definition startup_epoch_time_set (d : db) (startup_time : Z) : db :=
  apteryx_set_int d CONFIG_PATH STARTUP_EPOCH_TIME_KEY startup_time.
Definition startup_epoch_time_get (d : db) : Z :=
  C.u_int32_t (apteryx_get_int d CONFIG_PATH STARTUP_EPOCH_TIME_KEY).

(** The [DEFAULT_...] constants of libpcp.h. *)
Record pcp_defaults := {
  DEFAULT_MAP_SUPPORT : bool;
  DEFAULT_PEER_SUPPORT : bool;
  DEFAULT_THIRD_PARTY_SUPPORT : bool;
  DEFAULT_PROXY_SUPPORT : bool;
  DEFAULT_UPNP_IGD_PCP_IWF_SUPPORT : bool;
  DEFAULT_MIN_MAPPING_LIFETIME : Z;
  DEFAULT_MAX_MAPPING_LIFETIME : Z;
  DEFAULT_PREFER_FAILURE_REQ_RATE_LIMIT : Z
}.

(** Every setter answers [true]: the result is the database left. *)
Definition config_set_default (defaults : pcp_defaults) (d : db) : bool * db :=
  let d := map_support_set d (DEFAULT_MAP_SUPPORT defaults) in
  let d := peer_support_set d (DEFAULT_PEER_SUPPORT defaults) in
  let d := third_party_support_set d (DEFAULT_THIRD_PARTY_SUPPORT defaults) in
  let d := proxy_support_set d (DEFAULT_PROXY_SUPPORT defaults) in
  let d := upnp_igd_pcp_iwf_support_set d (DEFAULT_UPNP_IGD_PCP_IWF_SUPPORT defaults) in
  let d := min_mapping_lifetime_set d (DEFAULT_MIN_MAPPING_LIFETIME defaults) in
  let d := max_mapping_lifetime_set d (DEFAULT_MAX_MAPPING_LIFETIME defaults) in
  let d := prefer_failure_req_rate_limit_set d (DEFAULT_PREFER_FAILURE_REQ_RATE_LIMIT defaults) in
  (true, d).

(** *** Callbacks *)
Section Callbacks.

(** The state of the program that registered the callbacks. *)
Variable W : Type.

(** [pcp_callbacks] (declared in libpcp.h): one function pointer per
    event, [None] for a null one. *)
Record pcp_callbacks := {
  pcp_enabled : option (bool → W → W);
  map_support : option (bool → W → W);
  peer_support : option (bool → W → W);
  third_party_support : option (bool → W → W);
  proxy_support : option (bool → W → W);
  upnp_igd_pcp_iwf_support : option (bool → W → W);
  min_mapping_lifetime : option (Z → W → W);
  max_mapping_lifetime : option (Z → W → W);
  prefer_failure_req_rate_limit : option (Z → W → W);
  startup_epoch_time : option (Z → W → W);
  new_pcp_mapping : option (pcp_mapping → W → W);
  delete_pcp_mapping : option (Z → W → W)
}.

(** [if (saved_cbs->f) saved_cbs->f (arg);] *)
Definition call {A : Type} (saved_cbs : option pcp_callbacks)
    (f : pcp_callbacks → option (A → W → W)) (arg : A) (w : W) : C.outcome W :=
  cbs ← C.deref saved_cbs;
  C.Returns (match f cbs with Some g => g arg w | None => w end).

(** [if (saved_cbs && saved_cbs->f) saved_cbs->f (arg);] *)
Definition call_checked {A : Type} (saved_cbs : option pcp_callbacks)
    (f : pcp_callbacks → option (A → W → W)) (arg : A) (w : W) : C.outcome W :=
  match saved_cbs with
  | None => C.Returns w
  | Some _ => call saved_cbs f arg w
  end.

Definition pcp_load_config (defaults : pcp_defaults) (d : db)
    (saved_cbs : option pcp_callbacks) (w : W) : C.outcome (bool * db * W) :=
  if pcp_initialized_get d then
    w ← call saved_cbs pcp_enabled (pcp_enabled_get d) w;
    w ← call saved_cbs map_support (map_support_get d) w;
    w ← call saved_cbs peer_support (peer_support_get d) w;
    w ← call saved_cbs third_party_support (third_party_support_get d) w;
    w ← call saved_cbs proxy_support (proxy_support_get d) w;
    w ← call saved_cbs upnp_igd_pcp_iwf_support (upnp_igd_pcp_iwf_support_get d) w;
    w ← call saved_cbs min_mapping_lifetime (min_mapping_lifetime_get d) w;
    w ← call saved_cbs max_mapping_lifetime (max_mapping_lifetime_get d) w;
    w ← call saved_cbs prefer_failure_req_rate_limit
          (prefer_failure_req_rate_limit_get d) w;
    C.Returns (true, d, w)
  else
    let d := pcp_initialized_set d true in
    let d := pcp_enabled_set d true in
    let '(ret, d) := config_set_default defaults d in
    C.Returns (ret, d, w).

(** A watched path is the configuration directory with a key, a mapping
    directory with or without a key, or null ([None]). *)
Definition pcp_config_changed (d : db) (saved_cbs : option pcp_callbacks)
    (path : option Apteryx.path) (w : W) : C.outcome (bool * W) :=
  match path with
  | Some (CONFIG_PATH, Some key) =>
      if String.eqb key PCP_ENABLED_KEY then
        w ← call_checked saved_cbs pcp_enabled (pcp_enabled_get d) w;
        C.Returns (true, w)
      else if String.eqb key MAP_SUPPORT_KEY then
        w ← call_checked saved_cbs map_support (map_support_get d) w;
        C.Returns (true, w)
      else if String.eqb key PEER_SUPPORT_KEY then
        w ← call_checked saved_cbs peer_support (peer_support_get d) w;
        C.Returns (true, w)
      else if String.eqb key THIRD_PARTY_SUPPORT_KEY then
        w ← call_checked saved_cbs third_party_support (third_party_support_get d) w;
        C.Returns (true, w)
      else if String.eqb key PROXY_SUPPORT_KEY then
        w ← call_checked saved_cbs proxy_support (proxy_support_get d) w;
        C.Returns (true, w)
      else if String.eqb key UPNP_IGD_PCP_IWF_SUPPORT_KEY then
        w ← call_checked saved_cbs upnp_igd_pcp_iwf_support
              (upnp_igd_pcp_iwf_support_get d) w;
        C.Returns (true, w)
      else if String.eqb key MIN_MAPPING_LIFETIME_KEY then
        w ← call_checked saved_cbs min_mapping_lifetime (min_mapping_lifetime_get d) w;
        C.Returns (true, w)
      else if String.eqb key MAX_MAPPING_LIFETIME_KEY then
        w ← call_checked saved_cbs max_mapping_lifetime (max_mapping_lifetime_get d) w;
        C.Returns (true, w)
      else if String.eqb key PREFER_FAILURE_REQ_RATE_LIMIT_KEY then
        w ← call_checked saved_cbs prefer_failure_req_rate_limit
              (prefer_failure_req_rate_limit_get d) w;
        C.Returns (true, w)
      else if String.eqb key STARTUP_EPOCH_TIME_KEY then
        w ← call_checked saved_cbs startup_epoch_time (startup_epoch_time_get d) w;
        C.Returns (true, w)
      else if negb (String.eqb key PCP_INITIALIZED_KEY) then
        C.Returns (false, w)
      else C.Returns (true, w)
  | _ => C.Returns (false, w)
  end.

Definition pcp_mapping_changed (d : db) (saved_cbs : option pcp_callbacks)
    (path : option Apteryx.path) (w : W) : C.outcome (bool * W) :=
  match path with
  | Some (MAPPING_PATH mapping_id, _) =>
      match pcp_mapping_find d mapping_id with
      | None =>
          w ← call_checked saved_cbs delete_pcp_mapping mapping_id w;
          C.Returns (true, w)
      | Some mapping =>
          w ← call_checked saved_cbs new_pcp_mapping mapping w;
          C.Returns (true, w)
      end
  | _ => C.Returns (false, w)
  end.

(** [saved_cbs] after [pcp_register_cb (cb)]. *)
Definition pcp_register_cb (cb : option pcp_callbacks) : bool * option pcp_callbacks :=
  (true, cb).

(** [static pcp_callbacks *saved_cbs = NULL;] *)
Definition saved_cbs_initial : option pcp_callbacks := None.

End Callbacks.

(** *** Start and stop *)

(** [pcp_deinit]: the mappings go, the configuration stays. *)
Definition pcp_deinit (d : db) : db := (pcp_mapping_deleteall d).2.

(** [pcp_deinit_hard]: [apteryx_prune (ROOT_PATH)] leaves nothing below
    "/pcp", which is all the database holds here. *)
Definition pcp_deinit_hard (d : db) : db := ∅.

(** *** The uptime *)

(** The four numbers [get_uptime_string] prints, in [u_int32_t]. *)
Definition uptime_fields (now : Z) (d : db) : Z * Z * Z * Z :=
  let uptime := C.u_int32_t (now - startup_epoch_time_get d) in
  let days := uptime / 86400 in
  let uptime := C.u_int32_t (uptime - C.u_int32_t (days * 86400)) in
  let hours := uptime / 3600 in
  let uptime := C.u_int32_t (uptime - C.u_int32_t (hours * 3600)) in
  let minutes := uptime / 60 in
  let uptime := C.u_int32_t (uptime - C.u_int32_t (minutes * 60)) in
  let seconds := uptime in
  (days, hours, minutes, seconds).

(** "%02u": at least two digits. *)
Definition print_02u (v : Z) : string :=
  if v <? 10 then "0" +:+ pretty v else pretty v.

(** "%u:%02u:%02u:%02u"; the allocation of the string does not fail here. *)
Definition get_uptime_string (now : Z) (d : db) : string :=
  let '(days, hours, minutes, seconds) := uptime_fields now d in
  pretty days +:+ ":" +:+ print_02u hours +:+ ":" +:+ print_02u minutes
    +:+ ":" +:+ print_02u seconds.

End Pcp.

(** ** pcpd/packets_pcp.h *)
Module Packets.

Definition PCP_VERSION : Z := 2.
Definition RESPONSE_RESERVED_SIZE : Z := 3.
Definition MAPPING_NONCE_SIZE : Z := 3.
Definition MAP_OPCODE : Z := 1.
Definition PEER_OPCODE : Z := 2.
Definition PCP_SERVER_LISTENING_PORT : Z := 5351.

(** [#define R_REQUEST(opcode) (opcode & ~(1 << 7))] and
    [#define R_RESPONSE(opcode) (opcode | (1 << 7))], on [int]. *)
Definition R_REQUEST (opcode : Z) : Z := Z.land opcode (Z.lnot (Z.shiftl 1 7)).
Definition R_RESPONSE (opcode : Z) : Z := Z.lor opcode (Z.shiftl 1 7).

(** How the daemon tells the packets apart. *)
Inductive packet_type :=
| ANNOUNCE_REQUEST
| ANNOUNCE_RESPONSE
| MAP_REQUEST
| MAP_RESPONSE
| PEER_REQUEST
| PEER_RESPONSE
| UNDEFINED.

#[global] Instance packet_type_eq_dec : EqDecision packet_type.
Proof. solve_decision. Defined.

Inductive result_code :=
| SUCCESS
| UNSUPP_VERSION
| NOT_AUTHORIZED
| MALFORMED_REQUEST
| UNSUPP_OPCODE
| UNSUPP_OPTION
| MALFORMED_OPTION
| NETWORK_FAILURE
| NO_RESOURCES
| UNSUPP_PROTOCOL
| USER_EX_QUOTA
| CANNOT_PROVIDE_EXTERNAL
| ADDRESS_MISMATCH
| EXCESSIVE_REMOTE_PEERS.

(** The fields of the two headers and of the two MAP packets carry the
    prefix of their struct, as one module cannot hold two fields of one
    name. *)
Record pcp_request_header := {
  req_version : Z;                (* u_int8_t *)
  req_r_opcode : Z;               (* u_int8_t *)
  req_reserved : Z;               (* u_int16_t *)
  req_requested_lifetime : Z;     (* u_int32_t *)
  req_client_ip : Z               (* struct in6_addr *)
}.

Record pcp_response_header := {
  resp_version : Z;               (* u_int8_t *)
  resp_r_opcode : Z;              (* u_int8_t *)
  resp_reserved : Z;              (* u_int8_t *)
  resp_result_code : result_code; (* u_int8_t *)
  resp_lifetime : Z;              (* u_int32_t *)
  resp_epoch_time : Z;            (* u_int32_t *)
  resp_reserved_array : Z * Z * Z (* u_int32_t [RESPONSE_RESERVED_SIZE] *)
}.

Record map_request := {
  map_req_header : pcp_request_header;
  map_req_mapping_nonce : Z * Z * Z;
  map_req_protocol : Z;
  map_req_reserved_1 : Z;
  map_req_reserved_2 : Z;
  map_req_internal_port : Z;
  map_req_suggested_external_port : Z;
  map_req_suggested_external_ip : Z
}.

Record map_response := {
  map_resp_header : pcp_response_header;
  map_resp_mapping_nonce : Z * Z * Z;
  map_resp_protocol : Z;
  map_resp_reserved_1 : Z;
  map_resp_reserved_2 : Z;
  map_resp_internal_port : Z;
  map_resp_assigned_external_port : Z;
  map_resp_assigned_external_ip : Z
}.

(** Modelled from the spec: [new_pcp_response_header] is declared here and
    defined in packets_pcp.c. The response header carries the version, the
    opcode with the R bit set, the result code, the lifetime and the epoch
    time (seconds since the server started, an input here); its reserved
    fields are zero. *)
Definition new_pcp_response_header (epoch_time : Z) (opcode : Z)
    (result : result_code) (lifetime : Z) : pcp_response_header :=
  {| resp_version := PCP_VERSION;
     resp_r_opcode := R_RESPONSE opcode;
     resp_reserved := 0;
     resp_result_code := result;
     resp_lifetime := lifetime;
     resp_epoch_time := epoch_time;
     resp_reserved_array := (0, 0, 0) |}.

(** Modelled from the spec: [new_pcp_map_response] is declared here and
    defined in packets_pcp.c. The response echoes the nonce, the protocol
    and the internal port of the request and is filled with the assigned
    external endpoint. *)
Definition new_pcp_map_response (epoch_time : Z) (pcp_map_request : map_request)
    (lifetime : Z) (result : result_code) (port : Z) (ipv6_addr : Z) : map_response :=
  {| map_resp_header := new_pcp_response_header epoch_time MAP_OPCODE result lifetime;
     map_resp_mapping_nonce := map_req_mapping_nonce pcp_map_request;
     map_resp_protocol := map_req_protocol pcp_map_request;
     map_resp_reserved_1 := 0;
     map_resp_reserved_2 := 0;
     map_resp_internal_port := map_req_internal_port pcp_map_request;
     map_resp_assigned_external_port := port;
     map_resp_assigned_external_ip := ipv6_addr |}.

End Packets.

(** ** pcpd: the daemon *)
Module Pcpd.
Import Packets.

(** [pcp_config]; the fields carry the prefix [config_], the callbacks
    below have the plain names. *)
Record pcp_config := {
  config_output_path : option string;
  config_pcp_enabled : bool;
  config_map_support : bool;
  config_peer_support : bool;
  config_third_party_support : bool;
  config_proxy_support : bool;
  config_upnp_igd_pcp_iwf_support : bool;
  config_min_mapping_lifetime : Z;
  config_max_mapping_lifetime : Z;
  config_prefer_failure_req_rate_limit : Z
}.

Section ProcessMapRequest.

(** The serialization (packets_pcp_serialization.c), the bytes found
    where the string [assigned_ext_ip] is passed as a
    [struct in6_addr *], and the epoch time of the response. *)
Variable deserialize_map_request : list Z → map_request.
Variable serialize_map_response : map_response → list Z.
Variable in6_addr_at : string → Z.
Variable epoch_time : Z.

(** [map_resp] of [process_map_request]. *)
Definition process_map_request_response (map_req : map_request) : map_response :=
  let result := SUCCESS in
  let lifetime := 9001 in
  let assigned_ext_port := 4321 in
  let assigned_ext_ip := "80fe::2020:ff3b:2eef:3829"%string in
  new_pcp_map_response epoch_time map_req lifetime result assigned_ext_port
    (in6_addr_at assigned_ext_ip).

(** The result is the serialized response written over [pkt_buf]. *)
Definition process_map_request (pkt_buf : list Z) : list Z :=
  let map_req := deserialize_map_request pkt_buf in
  let map_resp := process_map_request_response map_req in
  serialize_map_response map_resp.

End ProcessMapRequest.

(** The callbacks the daemon registers: each one writes its field of the
    global [config] unless the field holds the value already. *)
Definition pcp_enabled (enabled : bool) (config : pcp_config) : pcp_config :=
  if bool_decide (config_pcp_enabled config = enabled) then config
  else
    {| config_output_path := config_output_path config;
       config_pcp_enabled := enabled;
       config_map_support := config_map_support config;
       config_peer_support := config_peer_support config;
       config_third_party_support := config_third_party_support config;
       config_proxy_support := config_proxy_support config;
       config_upnp_igd_pcp_iwf_support := config_upnp_igd_pcp_iwf_support config;
       config_min_mapping_lifetime := config_min_mapping_lifetime config;
       config_max_mapping_lifetime := config_max_mapping_lifetime config;
       config_prefer_failure_req_rate_limit := config_prefer_failure_req_rate_limit config |}.

Definition map_support (enabled : bool) (config : pcp_config) : pcp_config :=
  if bool_decide (config_map_support config = enabled) then config
  else
    {| config_output_path := config_output_path config;
       config_pcp_enabled := config_pcp_enabled config;
       config_map_support := enabled;
       config_peer_support := config_peer_support config;
       config_third_party_support := config_third_party_support config;
       config_proxy_support := config_proxy_support config;
       config_upnp_igd_pcp_iwf_support := config_upnp_igd_pcp_iwf_support config;
       config_min_mapping_lifetime := config_min_mapping_lifetime config;
       config_max_mapping_lifetime := config_max_mapping_lifetime config;
       config_prefer_failure_req_rate_limit := config_prefer_failure_req_rate_limit config |}.

Definition peer_support (enabled : bool) (config : pcp_config) : pcp_config :=
  if bool_decide (config_peer_support config = enabled) then config
  else
    {| config_output_path := config_output_path config;
       config_pcp_enabled := config_pcp_enabled config;
       config_map_support := config_map_support config;
       config_peer_support := enabled;
       config_third_party_support := config_third_party_support config;
       config_proxy_support := config_proxy_support config;
       config_upnp_igd_pcp_iwf_support := config_upnp_igd_pcp_iwf_support config;
       config_min_mapping_lifetime := config_min_mapping_lifetime config;
       config_max_mapping_lifetime := config_max_mapping_lifetime config;
       config_prefer_failure_req_rate_limit := config_prefer_failure_req_rate_limit config |}.

Definition third_party_support (enabled : bool) (config : pcp_config) : pcp_config :=
  if bool_decide (config_third_party_support config = enabled) then config
  else
    {| config_output_path := config_output_path config;
       config_pcp_enabled := config_pcp_enabled config;
       config_map_support := config_map_support config;
       config_peer_support := config_peer_support config;
       config_third_party_support := enabled;
       config_proxy_support := config_proxy_support config;
       config_upnp_igd_pcp_iwf_support := config_upnp_igd_pcp_iwf_support config;
       config_min_mapping_lifetime := config_min_mapping_lifetime config;
       config_max_mapping_lifetime := config_max_mapping_lifetime config;
       config_prefer_failure_req_rate_limit := config_prefer_failure_req_rate_limit config |}.

Definition proxy_support (enabled : bool) (config : pcp_config) : pcp_config :=
  if bool_decide (config_proxy_support config = enabled) then config
  else
    {| config_output_path := config_output_path config;
       config_pcp_enabled := config_pcp_enabled config;
       config_map_support := config_map_support config;
       config_peer_support := config_peer_support config;
       config_third_party_support := config_third_party_support config;
       config_proxy_support := enabled;
       config_upnp_igd_pcp_iwf_support := config_upnp_igd_pcp_iwf_support config;
       config_min_mapping_lifetime := config_min_mapping_lifetime config;
       config_max_mapping_lifetime := config_max_mapping_lifetime config;
       config_prefer_failure_req_rate_limit := config_prefer_failure_req_rate_limit config |}.

Definition upnp_igd_pcp_iwf_support (enabled : bool) (config : pcp_config) : pcp_config :=
  if bool_decide (config_upnp_igd_pcp_iwf_support config = enabled) then config
  else
    {| config_output_path := config_output_path config;
       config_pcp_enabled := config_pcp_enabled config;
       config_map_support := config_map_support config;
       config_peer_support := config_peer_support config;
       config_third_party_support := config_third_party_support config;
       config_proxy_support := config_proxy_support config;
       config_upnp_igd_pcp_iwf_support := enabled;
       config_min_mapping_lifetime := config_min_mapping_lifetime config;
       config_max_mapping_lifetime := config_max_mapping_lifetime config;
       config_prefer_failure_req_rate_limit := config_prefer_failure_req_rate_limit config |}.

Definition min_mapping_lifetime (lifetime : Z) (config : pcp_config) : pcp_config :=
  if bool_decide (config_min_mapping_lifetime config = lifetime) then config
  else
    {| config_output_path := config_output_path config;
       config_pcp_enabled := config_pcp_enabled config;
       config_map_support := config_map_support config;
       config_peer_support := config_peer_support config;
       config_third_party_support := config_third_party_support config;
       config_proxy_support := config_proxy_support config;
       config_upnp_igd_pcp_iwf_support := config_upnp_igd_pcp_iwf_support config;
       config_min_mapping_lifetime := lifetime;
       config_max_mapping_lifetime := config_max_mapping_lifetime config;
       config_prefer_failure_req_rate_limit := config_prefer_failure_req_rate_limit config |}.

Definition max_mapping_lifetime (lifetime : Z) (config : pcp_config) : pcp_config :=
  if bool_decide (config_max_mapping_lifetime config = lifetime) then config
  else
    {| config_output_path := config_output_path config;
       config_pcp_enabled := config_pcp_enabled config;
       config_map_support := config_map_support config;
       config_peer_support := config_peer_support config;
       config_third_party_support := config_third_party_support config;
       config_proxy_support := config_proxy_support config;
       config_upnp_igd_pcp_iwf_support := config_upnp_igd_pcp_iwf_support config;
       config_min_mapping_lifetime := config_min_mapping_lifetime config;
       config_max_mapping_lifetime := lifetime;
       config_prefer_failure_req_rate_limit := config_prefer_failure_req_rate_limit config |}.

Definition prefer_failure_req_rate_limit (rate : Z) (config : pcp_config) : pcp_config :=
  if bool_decide (config_prefer_failure_req_rate_limit config = rate) then config
  else
    {| config_output_path := config_output_path config;
       config_pcp_enabled := config_pcp_enabled config;
       config_map_support := config_map_support config;
       config_peer_support := config_peer_support config;
       config_third_party_support := config_third_party_support config;
       config_proxy_support := config_proxy_support config;
       config_upnp_igd_pcp_iwf_support := config_upnp_igd_pcp_iwf_support config;
       config_min_mapping_lifetime := config_min_mapping_lifetime config;
       config_max_mapping_lifetime := config_max_mapping_lifetime config;
       config_prefer_failure_req_rate_limit := rate |}.

(** [callbacks]: the members the initializer leaves out are null. *)
Definition callbacks : Pcp.pcp_callbacks pcp_config :=
  {| Pcp.pcp_enabled := Some pcp_enabled;
     Pcp.map_support := Some map_support;
     Pcp.peer_support := Some peer_support;
     Pcp.third_party_support := Some third_party_support;
     Pcp.proxy_support := Some proxy_support;
     Pcp.upnp_igd_pcp_iwf_support := Some upnp_igd_pcp_iwf_support;
     Pcp.min_mapping_lifetime := Some min_mapping_lifetime;
     Pcp.max_mapping_lifetime := Some max_mapping_lifetime;
     Pcp.prefer_failure_req_rate_limit := Some prefer_failure_req_rate_limit;
     Pcp.startup_epoch_time := None;
     Pcp.new_pcp_mapping := None;
     Pcp.delete_pcp_mapping := None |}.

Section MainLoop.

(** [get_packet_type] (packets_pcp.c) and the parameters of
    [process_map_request]. *)
Variable get_packet_type : list Z → packet_type.
Variable deserialize_map_request : list Z → map_request.
Variable serialize_map_response : map_response → list Z.
Variable in6_addr_at : string → Z.
Variable epoch_time : Z.

(** One turn of the loop of [main] on a received packet: what is sent
    back, if anything. *)
Definition main_loop_body (config : pcp_config) (pkt_buf : list Z) : option (list Z) :=
  let type := get_packet_type pkt_buf in
  if bool_decide (type = MAP_REQUEST) && bool_decide (config_map_support config = true)
  then
    Some (process_map_request deserialize_map_request serialize_map_response
            in6_addr_at epoch_time pkt_buf)
  else None.

End MainLoop.

End Pcpd.

(** * Notions the properties are stated with *)

Import Apteryx Pcp Packets.

(** Every mapping subtree was written by [pcp_mapping_add]: its "index" leaf
    holds the identifier its path spells. *)
Definition store_indexed (d : db) : Prop :=
  ∀ id, id ∈ apteryx_search_mappings d →
        apteryx_get_int d (MAPPING_PATH id) INDEX_KEY = id.

(** [max] is the greatest identifier in use, 0 when none is. *)
Definition greatest_id (d : db) (max : Z) : Prop :=
  (∀ id, id ∈ apteryx_search_mappings d → id ≤ max)
  ∧ (max ∈ apteryx_search_mappings d ∨ (apteryx_search_mappings d = [] ∧ max = 0)).

(** The candidate of the allocator, over the integers. *)
Definition candidate (max : Z) : Z := (max + 11) - (max + 11) mod 10.

(** [end_of_life == start_of_life + lifetime], in the arithmetic of the
    [u_int32_t] fields. *)
Definition lease_consistent (m : pcp_mapping) : Prop :=
  end_of_life m = C.u_int32_t (start_of_life m + lifetime m).

Definition store_consistent (d : db) : Prop :=
  ∀ id m, pcp_mapping_find d id = Some m → lease_consistent m.

(** A mapping with its lease replaced. *)
Definition with_lease (m : pcp_mapping) (new_lifetime new_end_of_life : Z) : pcp_mapping :=
  {| path := path m; index := index m; mapping_nonce := mapping_nonce m;
     internal_ip := internal_ip m; internal_port := internal_port m;
     external_ip := external_ip m; external_port := external_port m;
     lifetime := new_lifetime;
     start_of_life := start_of_life m;
     end_of_life := new_end_of_life;
     opcode := opcode m; protocol := protocol m |}.

(** Ascending order of the index field. *)
Definition by_index (a b : pcp_mapping) : Prop := index a ≤ index b.

(** [pcp_mapping_add] in a build with the default [MAXIMUM_MAPPING_ID], for
    a MAP mapping of TCP port 4000, with the two readings of the clock
    given; and the same created at time 1000, the clock not ticking. *)
Definition add_at_clock (now now' : Z) (d : db) (index lifetime : Z) : bool * db :=
  pcp_mapping_add C.INT_MAX now now' d index (1, 2, 3) 100 4000 200 5000 lifetime 1 6.

Definition add_at (d : db) (index lifetime : Z) : bool * db :=
  add_at_clock 1000 1000 d index lifetime.

(** The store of the specification's scenario: mapping 10 created at
    [t0 = 1000] with internal port 4000 and lifetime 120. *)
Definition scenario_store : db := (add_at ∅ 10 120).2.

(** The mapping [pcp_mapping_find] reads back from it. *)
Definition scenario_mapping : pcp_mapping :=
  {| path := MAPPING_PATH 10; index := 10; mapping_nonce := (1, 2, 3);
     internal_ip := 100; internal_port := 4000;
     external_ip := 200; external_port := 5000;
     lifetime := 120; start_of_life := 1000; end_of_life := 1120;
     opcode := 1; protocol := 6 |}.

(** The scenario's store after [pcp_mapping_refresh_lifetime (10, 60, t0 + 70)]
    at [t0 + 10]. *)
Definition scenario_refreshed : db :=
  (pcp_mapping_refresh_lifetime 1010 scenario_store 10 60 1070).2.

(** Mapping 10 created with lifetime 120 while the clock ticks from 1000 to
    1001 between the two readings, and the mapping read back. *)
Definition ticked_store : db := (add_at_clock 1000 1001 ∅ 10 120).2.

Definition ticked_mapping : pcp_mapping :=
  {| path := MAPPING_PATH 10; index := 10; mapping_nonce := (1, 2, 3);
     internal_ip := 100; internal_port := 4000;
     external_ip := 200; external_port := 5000;
     lifetime := 120; start_of_life := 1000; end_of_life := 1121;
     opcode := 1; protocol := 6 |}.

(** Mapping 10 created at 1700000000 with the lifetime 2594967296, which
    ends at 2^32, and the mapping read back. *)
Definition wrapped_store : db := (add_at_clock 1700000000 1700000000 ∅ 10 2594967296).2.

Definition wrapped_mapping : pcp_mapping :=
  {| path := MAPPING_PATH 10; index := 10; mapping_nonce := (1, 2, 3);
     internal_ip := 100; internal_port := 4000;
     external_ip := 200; external_port := 5000;
     lifetime := 2594967296; start_of_life := 1700000000; end_of_life := 0;
     opcode := 1; protocol := 6 |}.

(** Three mappings, created out of order. *)
Definition three_store : db :=
  (add_at (add_at (add_at ∅ 30 120).2 10 120).2 20 120).2.

(** A store whose one mapping has the greatest [int] as its index, and one
    whose mapping has an index ten below it. *)
Definition full_store : db := (add_at ∅ C.INT_MAX 120).2.
Definition near_full_store : db := (add_at ∅ 2147483637 120).2.

(** The first of them with a mapping of index -3 added. *)
Definition out_of_order_store : db := (add_at full_store (-3) 120).2.

(** A MAP request of protocol version 1. *)
Definition version_1_request : map_request :=
  {| map_req_header :=
       {| req_version := 1;
          req_r_opcode := R_REQUEST MAP_OPCODE;
          req_reserved := 0;
          req_requested_lifetime := 120;
          req_client_ip := 100 |};
     map_req_mapping_nonce := (1, 2, 3);
     map_req_protocol := 6;
     map_req_reserved_1 := 0;
     map_req_reserved_2 := 0;
     map_req_internal_port := 4000;
     map_req_suggested_external_port := 5000;
     map_req_suggested_external_ip := 200 |}.

(** The keys [pcp_config_changed] knows. *)
Definition config_keys : list string :=
  [PCP_ENABLED_KEY; MAP_SUPPORT_KEY; PEER_SUPPORT_KEY; THIRD_PARTY_SUPPORT_KEY;
   PROXY_SUPPORT_KEY; UPNP_IGD_PCP_IWF_SUPPORT_KEY; MIN_MAPPING_LIFETIME_KEY;
   MAX_MAPPING_LIFETIME_KEY; PREFER_FAILURE_REQ_RATE_LIMIT_KEY; STARTUP_EPOCH_TIME_KEY;
   PCP_INITIALIZED_KEY].

(** The configuration the daemon's callbacks would copy out of a database. *)
Definition config_of_db (output_path : option string) (d : db) : Pcpd.pcp_config :=
  {| Pcpd.config_output_path := output_path;
     Pcpd.config_pcp_enabled := pcp_enabled_get d;
     Pcpd.config_map_support := map_support_get d;
     Pcpd.config_peer_support := peer_support_get d;
     Pcpd.config_third_party_support := third_party_support_get d;
     Pcpd.config_proxy_support := proxy_support_get d;
     Pcpd.config_upnp_igd_pcp_iwf_support := upnp_igd_pcp_iwf_support_get d;
     Pcpd.config_min_mapping_lifetime := min_mapping_lifetime_get d;
     Pcpd.config_max_mapping_lifetime := max_mapping_lifetime_get d;
     Pcpd.config_prefer_failure_req_rate_limit := prefer_failure_req_rate_limit_get d |}.

(** Sample values for the [DEFAULT_...] constants, and a daemon
    configuration that holds none of them. *)
Definition sample_defaults : pcp_defaults :=
  {| DEFAULT_MAP_SUPPORT := true;
     DEFAULT_PEER_SUPPORT := true;
     DEFAULT_THIRD_PARTY_SUPPORT := false;
     DEFAULT_PROXY_SUPPORT := false;
     DEFAULT_UPNP_IGD_PCP_IWF_SUPPORT := false;
     DEFAULT_MIN_MAPPING_LIFETIME := 120;
     DEFAULT_MAX_MAPPING_LIFETIME := 86400;
     DEFAULT_PREFER_FAILURE_REQ_RATE_LIMIT := 256 |}.

Definition blank_config : Pcpd.pcp_config :=
  {| Pcpd.config_output_path := None;
     Pcpd.config_pcp_enabled := false;
     Pcpd.config_map_support := false;
     Pcpd.config_peer_support := false;
     Pcpd.config_third_party_support := false;
     Pcpd.config_proxy_support := false;
     Pcpd.config_upnp_igd_pcp_iwf_support := false;
     Pcpd.config_min_mapping_lifetime := 0;
     Pcpd.config_max_mapping_lifetime := 0;
     Pcpd.config_prefer_failure_req_rate_limit := 0 |}.

(** The database a first [pcp_load_config] leaves from an empty one. *)
Definition initialized_db : db :=
  let d := pcp_initialized_set ∅ true in
  let d := pcp_enabled_set d true in
  (config_set_default sample_defaults d).2.

(** A callback table that logs the mappings reported as new (by index) and
    as deleted (by the negated index minus one). *)
Definition logging_callbacks : pcp_callbacks (list Z) :=
  {| pcp_enabled := None; map_support := None; peer_support := None;
     third_party_support := None; proxy_support := None;
     upnp_igd_pcp_iwf_support := None; min_mapping_lifetime := None;
     max_mapping_lifetime := None; prefer_failure_req_rate_limit := None;
     startup_epoch_time := None;
     new_pcp_mapping := Some (λ m w, index m :: w);
     delete_pcp_mapping := Some (λ id w, (- id - 1) :: w) |}.

(** Two mappings, 10 and 20. *)
Definition two_store : db := (add_at scenario_store (-1) 300).2.

(** The keys whose changes the daemon's callbacks take up. *)
Definition daemon_config_keys : list string :=
  [PCP_ENABLED_KEY; MAP_SUPPORT_KEY; PEER_SUPPORT_KEY; THIRD_PARTY_SUPPORT_KEY;
   PROXY_SUPPORT_KEY; UPNP_IGD_PCP_IWF_SUPPORT_KEY; MIN_MAPPING_LIFETIME_KEY;
   MAX_MAPPING_LIFETIME_KEY; PREFER_FAILURE_REQ_RATE_LIMIT_KEY].

(** * Properties *)

(** ** Fixed-width integers *)

Lemma u32_int z : C.u_int32_t (C.int z) = C.u_int32_t z.
Proof.
  unfold C.u_int32_t, C.int.
  rewrite Zminus_mod_idemp_l.
  by replace (z + 2147483648 - 2147483648) with z by lia.
Qed.

Lemma int_small z : -2147483648 ≤ z ≤ C.INT_MAX → C.int z = z.
Proof.
  unfold C.int, C.INT_MAX. intros H.
  rewrite Z.mod_small by lia. lia.
Qed.

Lemma u32_small z : 0 ≤ z < 4294967296 → C.u_int32_t z = z.
Proof. intros H. unfold C.u_int32_t. by rewrite Z.mod_small by lia. Qed.

Lemma u32_range z : 0 ≤ C.u_int32_t z < 4294967296.
Proof. unfold C.u_int32_t. apply Z.mod_pos_bound. lia. Qed.

Lemma u32_add_idemp a b : C.u_int32_t (C.u_int32_t a + C.u_int32_t b) = C.u_int32_t (a + b).
Proof. unfold C.u_int32_t. by rewrite <- Zplus_mod. Qed.

(** ** The database under the mapping store *)

Ltac key_ne := first [ discriminate | congruence | (intros [= ?]; congruence) ].

Ltac db_unfold :=
  unfold apteryx_get_int, apteryx_get_ipv6_addr, apteryx_get_string,
    apteryx_set_int, apteryx_set_ipv6_addr, apteryx_set.

Ltac db_lookup :=
  repeat first [ rewrite lookup_insert_eq | rewrite lookup_insert_ne by key_ne ].

Lemma find_store_same d i nonce iip iport eip eport l op pr now now' :
  pcp_mapping_find (pcp_mapping_store d i nonce iip iport eip eport l op pr now now') i =
  Some {| path := MAPPING_PATH i; index := i;
          mapping_nonce := (C.u_int32_t nonce.1.1, C.u_int32_t nonce.1.2, C.u_int32_t nonce.2);
          internal_ip := iip; internal_port := C.u_int16_t (C.int iport);
          external_ip := eip; external_port := C.u_int16_t (C.int eport);
          lifetime := C.u_int32_t l;
          start_of_life := C.u_int32_t now;
          end_of_life := C.u_int32_t (now' + l);
          opcode := C.u_int8_t (C.int op); protocol := C.u_int8_t (C.int pr) |}.
Proof.
  unfold pcp_mapping_find, pcp_mapping_store. db_unfold. cbv zeta.
  db_lookup. by rewrite !u32_int.
Qed.

Lemma lookup_store_other d i nonce iip iport eip eport l op pr now now' p k :
  p ≠ MAPPING_PATH i →
  pcp_mapping_store d i nonce iip iport eip eport l op pr now now' !! (p, k) = d !! (p, k).
Proof.
  intros Hp. unfold pcp_mapping_store. db_unfold. cbv zeta.
  by rewrite !lookup_insert_ne by congruence.
Qed.

Lemma find_agree (d d' : db) j :
  (∀ k, d' !! (MAPPING_PATH j, k) = d !! (MAPPING_PATH j, k)) →
  pcp_mapping_find d' j = pcp_mapping_find d j.
Proof.
  intros H. unfold pcp_mapping_find. db_unfold. by rewrite !H.
Qed.

Lemma get_int_agree (d d' : db) p key :
  d' !! (p, Some key) = d !! (p, Some key) →
  apteryx_get_int d' p key = apteryx_get_int d p key.
Proof. unfold apteryx_get_int. by intros ->. Qed.

Lemma find_store_other d i nonce iip iport eip eport l op pr now now' j :
  j ≠ i →
  pcp_mapping_find (pcp_mapping_store d i nonce iip iport eip eport l op pr now now') j =
  pcp_mapping_find d j.
Proof.
  intros Hj. apply find_agree. intros k. apply lookup_store_other. congruence.
Qed.

Lemma find_index d id m : pcp_mapping_find d id = Some m → index m = id.
Proof.
  unfold pcp_mapping_find. destruct (apteryx_get_string _ _ _); [|done].
  by intros [= <-].
Qed.

Lemma find_is_Some d id :
  is_Some (pcp_mapping_find d id) ↔ is_Some (d !! (MAPPING_PATH id, None)).
Proof.
  unfold pcp_mapping_find, apteryx_get_string.
  destruct (d !! (MAPPING_PATH id, None)); split; intros [? ?]; by eauto.
Qed.

Lemma elem_of_search (d : db) id :
  id ∈ apteryx_search_mappings d ↔ ∃ k, is_Some (d !! (MAPPING_PATH id, k)).
Proof.
  unfold apteryx_search_mappings.
  rewrite elem_of_elements, elem_of_set_omap. split.
  - intros ([p k] & Hin & Hid). apply elem_of_dom in Hin.
    unfold mapping_id_of in Hid. simpl in Hid. destruct p; [done|].
    injection Hid as ->. by exists k.
  - intros [k Hk]. exists (MAPPING_PATH id, k). split; [by apply elem_of_dom | done].
Qed.

Lemma search_NoDup (d : db) : NoDup (apteryx_search_mappings d).
Proof. unfold apteryx_search_mappings. apply NoDup_elements. Qed.

Lemma find_in_search d id :
  is_Some (pcp_mapping_find d id) → id ∈ apteryx_search_mappings d.
Proof. rewrite find_is_Some, elem_of_search. eauto. Qed.

Lemma lookup_store_is_Some d i nonce iip iport eip eport l op pr now now' k :
  is_Some (d !! (MAPPING_PATH i, k)) →
  is_Some (pcp_mapping_store d i nonce iip iport eip eport l op pr now now' !! (MAPPING_PATH i, k)).
Proof.
  intros H. unfold pcp_mapping_store. db_unfold. cbv zeta.
  repeat (apply lookup_insert_is_Some'; right). done.
Qed.

Lemma search_store d i nonce iip iport eip eport l op pr now now' id :
  id ∈ apteryx_search_mappings (pcp_mapping_store d i nonce iip iport eip eport l op pr now now')
  ↔ id = i ∨ id ∈ apteryx_search_mappings d.
Proof.
  rewrite !elem_of_search. split.
  - intros [k Hk]. destruct (decide (id = i)) as [->|Hne]; [by left|right].
    exists k. by rewrite lookup_store_other in Hk by congruence.
  - intros [->|[k Hk]].
    + exists None. apply find_is_Some. rewrite find_store_same. eauto.
    + destruct (decide (id = i)) as [->|Hne].
      * exists k. by apply lookup_store_is_Some.
      * exists k. by rewrite lookup_store_other by congruence.
Qed.

Lemma index_leaf_store d i nonce iip iport eip eport l op pr now now' :
  apteryx_get_int (pcp_mapping_store d i nonce iip iport eip eport l op pr now now')
    (MAPPING_PATH i) INDEX_KEY = C.int i.
Proof.
  unfold pcp_mapping_store. db_unfold. cbv zeta. by db_lookup.
Qed.

Lemma lookup_prune_same (d : db) p k : apteryx_prune d p !! (p, k) = None.
Proof.
  unfold apteryx_prune. apply map_lookup_filter_None. right.
  intros x _ Hne. by apply Hne.
Qed.

Lemma lookup_prune_other (d : db) p q k :
  q ≠ p → apteryx_prune d p !! (q, k) = d !! (q, k).
Proof.
  intros Hq. unfold apteryx_prune.
  destruct (d !! (q, k)) as [x|] eqn:E.
  - by apply map_lookup_filter_Some.
  - apply map_lookup_filter_None. by left.
Qed.

Lemma lookup_prune_mappings (d : db) id k :
  apteryx_prune_mappings d !! (MAPPING_PATH id, k) = None.
Proof.
  unfold apteryx_prune_mappings. apply map_lookup_filter_None. right.
  intros x _ Hc. simpl in Hc. discriminate.
Qed.

Lemma find_prune_same d i : pcp_mapping_find (apteryx_prune d (MAPPING_PATH i)) i = None.
Proof.
  unfold pcp_mapping_find, apteryx_get_string. by rewrite lookup_prune_same.
Qed.

Lemma find_prune_other d i j :
  j ≠ i → pcp_mapping_find (apteryx_prune d (MAPPING_PATH i)) j = pcp_mapping_find d j.
Proof.
  intros Hj. apply find_agree. intros k. apply lookup_prune_other. congruence.
Qed.

Lemma find_prune_mappings d j : pcp_mapping_find (apteryx_prune_mappings d) j = None.
Proof.
  unfold pcp_mapping_find, apteryx_get_string. by rewrite lookup_prune_mappings.
Qed.

(** The two [apteryx_set_int] calls of a refresh, read back. *)
Lemma find_refresh_same d i m L E :
  pcp_mapping_find d i = Some m →
  pcp_mapping_find
    (apteryx_set_int (apteryx_set_int d (MAPPING_PATH i) LIFETIME_KEY L)
       (MAPPING_PATH i) END_OF_LIFE_KEY E) i
  = Some (with_lease m (C.u_int32_t L) (C.u_int32_t E)).
Proof.
  unfold pcp_mapping_find. db_unfold.
  intros H. db_lookup.
  destruct (d !! (MAPPING_PATH i, None)); [|done].
  injection H as <-. unfold with_lease. simpl. by rewrite !u32_int.
Qed.

Lemma find_refresh_other d i j L E :
  j ≠ i →
  pcp_mapping_find
    (apteryx_set_int (apteryx_set_int d (MAPPING_PATH i) LIFETIME_KEY L)
       (MAPPING_PATH i) END_OF_LIFE_KEY E) j
  = pcp_mapping_find d j.
Proof.
  intros Hj. apply find_agree. intros k. db_unfold.
  by rewrite !lookup_insert_ne by congruence.
Qed.

Lemma add_fails_unchanged M now now' d i nonce iip iport eip eport l op pr :
  (pcp_mapping_add M now now' d i nonce iip iport eip eport l op pr).1 = false →
  (pcp_mapping_add M now now' d i nonce iip iport eip eport l op pr).2 = d.
Proof.
  unfold pcp_mapping_add.
  destruct (_ && _); [done|]. by destruct (pcp_mapping_find _ _).
Qed.

Lemma refresh_success now d i L E :
  (pcp_mapping_refresh_lifetime now d i L E).1 = true →
  ∃ m, pcp_mapping_find d i = Some m
       ∧ (pcp_mapping_refresh_lifetime now d i L E).2
         = apteryx_set_int (apteryx_set_int d (MAPPING_PATH i) LIFETIME_KEY L)
             (MAPPING_PATH i) END_OF_LIFE_KEY E.
Proof.
  unfold pcp_mapping_refresh_lifetime.
  destruct (_ || _); [done|].
  destruct (pcp_mapping_find d i) as [m|]; [|done]. eauto.
Qed.

Lemma refresh_fails_unchanged now d i L E :
  (pcp_mapping_refresh_lifetime now d i L E).1 = false →
  (pcp_mapping_refresh_lifetime now d i L E).2 = d.
Proof.
  unfold pcp_mapping_refresh_lifetime.
  destruct (_ || _); [done|]. by destruct (pcp_mapping_find d i).
Qed.

(** The stores of the scenarios, read back. *)
Lemma scenario_store_find : pcp_mapping_find scenario_store 10 = Some scenario_mapping.
Proof. by vm_compute. Qed.

Lemma scenario_store_search : apteryx_search_mappings scenario_store = [10].
Proof. by vm_compute. Qed.

(** ** The identifier allocator *)

(** The loop of [current_highest_index] leaves the greatest of its start
    value and the values read. *)
Lemma fold_highest (f : Z → Z) (l : list Z) (a : Z) :
  let r := fold_left (λ max q, if f q >? max then f q else max) l a in
  a ≤ r ∧ (∀ q, q ∈ l → f q ≤ r) ∧ (r = a ∨ ∃ q, q ∈ l ∧ r = f q).
Proof.
  revert a. induction l as [|x l IH]; intros a; simpl.
  - split; [lia|]. split; [|by left]. intros q Hq. by apply elem_of_nil in Hq.
  - destruct (IH (if f x >? a then f x else a)) as (Hle & Hub & Hwit).
    destruct (Z.gtb_spec (f x) a) as [Hgt|Hngt].
    + split; [lia|]. split.
      * intros q [->|Hq]%elem_of_cons; [lia | by apply Hub].
      * right. destruct Hwit as [->|(q & Hq & ->)].
        -- exists x. split; [left | done].
        -- exists q. split; [by right | done].
    + split; [lia|]. split.
      * intros q [->|Hq]%elem_of_cons; [lia | by apply Hub].
      * destruct Hwit as [->|(q & Hq & ->)]; [by left|].
        right. exists q. split; [by right | done].
Qed.

Lemma current_highest_index_greatest d max :
  store_indexed d →
  (∀ id, id ∈ apteryx_search_mappings d → 0 ≤ id) →
  greatest_id d max →
  current_highest_index d = max ∧ 0 ≤ max.
Proof.
  intros Hidx Hnn [Hub Hmax]. unfold current_highest_index.
  pose proof (fold_highest (λ q, apteryx_get_int d (MAPPING_PATH q) INDEX_KEY)
                (apteryx_search_mappings d) 0) as (Hle & Hall & Hwit).
  simpl in *.
  set (r := fold_left _ _ _) in *.
  destruct Hmax as [Hin|[Hnil ->]].
  - pose proof (Hall _ Hin) as Hm. rewrite (Hidx _ Hin) in Hm.
    pose proof (Hnn _ Hin).
    destruct Hwit as [Hr|(q & Hq & Hr)].
    + lia.
    + rewrite (Hidx _ Hq) in Hr. pose proof (Hub _ Hq). lia.
  - destruct Hwit as [Hr|(q & Hq & Hr)]; [lia|].
    rewrite Hnil in Hq. by apply elem_of_nil in Hq.
Qed.

Lemma candidate_facts max : candidate max mod 10 = 0 ∧ max < candidate max ≤ max + 11.
Proof.
  unfold candidate.
  pose proof (Z.mod_pos_bound (max + 11) 10 ltac:(lia)).
  split; [|lia].
  rewrite Zminus_mod_idemp_r. by rewrite Z.sub_diag.
Qed.

(** Where [max + 11] fits an [int], the allocator is the specification's:
    the candidate, a multiple of ten above [max], or -1 past the ceiling. *)
Lemma next_highest_id_in_range M d max :
  store_indexed d →
  (∀ id, id ∈ apteryx_search_mappings d → 0 ≤ id) →
  greatest_id d max →
  max + 11 ≤ C.INT_MAX →
  next_highest_id M d = (if candidate max >? M then -1 else candidate max)
  ∧ candidate max mod 10 = 0
  ∧ max < candidate max.
Proof.
  intros Hidx Hnn Hmax Hfit.
  destruct (current_highest_index_greatest d max Hidx Hnn Hmax) as [Hcur H0].
  destruct (candidate_facts max) as [Hten [Hlt Hle]].
  split; [|done].
  unfold next_highest_id. rewrite Hcur.
  unfold C.INT_MAX in *.
  rewrite (int_small (max + 11)) by (unfold C.INT_MAX; lia).
  unfold C.rem. rewrite Z.rem_mod_nonneg by lia.
  fold (candidate max).
  by rewrite int_small by (unfold C.INT_MAX; lia).
Qed.

Lemma store_indexed_empty : store_indexed ∅.
Proof. intros id Hin. by vm_compute in Hin; apply elem_of_nil in Hin. Qed.

Lemma int_range z : -2147483648 ≤ C.int z ≤ C.INT_MAX.
Proof.
  unfold C.int, C.INT_MAX.
  pose proof (Z.mod_pos_bound (z + 2147483648) 4294967296 ltac:(lia)). lia.
Qed.

Lemma next_mapping_id_range M d : -2147483648 ≤ next_mapping_id M d ≤ C.INT_MAX.
Proof.
  unfold next_mapping_id, next_highest_id.
  destruct (_ >? M); [unfold C.INT_MAX; lia | apply int_range].
Qed.

(** [pcp_mapping_add] keeps the "index" leaves in step with the paths. *)
Lemma store_indexed_add M now now' d i nonce iip iport eip eport l op pr :
  -2147483648 ≤ i ≤ C.INT_MAX →
  store_indexed d →
  store_indexed (pcp_mapping_add M now now' d i nonce iip iport eip eport l op pr).2.
Proof.
  intros Hi Hd. unfold pcp_mapping_add.
  destruct (_ && _); [done|].
  set (a := if i =? -1 then _ else _).
  assert (Ha : -2147483648 ≤ a ≤ C.INT_MAX).
  { subst a. destruct (i =? -1); [apply next_mapping_id_range | done]. }
  destruct (pcp_mapping_find d a); [done|]. simpl.
  intros id [->|Hin]%search_store.
  - rewrite index_leaf_store. by apply int_small.
  - destruct (decide (id = a)) as [->|Hne].
    + rewrite index_leaf_store. by apply int_small.
    + rewrite <- (Hd id Hin) at 2. apply get_int_agree.
      apply lookup_store_other. congruence.
Qed.

Lemma store_indexed_scenario : store_indexed scenario_store.
Proof. apply store_indexed_add; [unfold C.INT_MAX; lia | apply store_indexed_empty]. Qed.

(** The scenario's store: the next identifier after 10 is 20. *)
Example next_mapping_id_scenario : next_mapping_id C.INT_MAX scenario_store = 20.
Proof.
  unfold next_mapping_id.
  destruct (next_highest_id_in_range C.INT_MAX scenario_store 10) as [-> _]; [| | | |done].
  - apply store_indexed_scenario.
  - rewrite scenario_store_search. intros id ->%list_elem_of_singleton. lia.
  - split; rewrite scenario_store_search.
    + intros id ->%list_elem_of_singleton. lia.
    + left. by apply list_elem_of_singleton.
  - unfold C.INT_MAX. lia.
Qed.

(** C1. The allocator takes [max + 11] in [int] arithmetic before it looks
    at the ceiling. With the greatest identifier in use at [INT_MAX], where
    the candidate 2147483650 exceeds the default ceiling [INT_MAX], it
    answers -2147483630 and not -1; with the greatest identifier at
    2147483637, where the candidate 2147483640 is a multiple of ten above it
    and within the ceiling, it answers -2147483640. *)
Theorem next_mapping_id_wraps_near_int_max :
  (greatest_id full_store C.INT_MAX
   ∧ C.INT_MAX < candidate C.INT_MAX
   ∧ next_mapping_id C.INT_MAX full_store = -2147483630)
  ∧ (greatest_id near_full_store 2147483637
     ∧ candidate 2147483637 = 2147483640
     ∧ candidate 2147483637 ≤ C.INT_MAX
     ∧ next_mapping_id C.INT_MAX near_full_store = -2147483640).
Proof.
  assert (Hfull : apteryx_search_mappings full_store = [C.INT_MAX]) by by vm_compute.
  assert (Hnear : apteryx_search_mappings near_full_store = [2147483637]) by by vm_compute.
  split.
  - split; [|split]; [|by vm_compute|by vm_compute].
    unfold greatest_id. rewrite Hfull. split.
    + intros id ->%list_elem_of_singleton. lia.
    + left. by apply list_elem_of_singleton.
  - split; [|split; [|split]]; [|by vm_compute|by vm_compute|by vm_compute].
    unfold greatest_id. rewrite Hnear. split.
    + intros id ->%list_elem_of_singleton. lia.
    + left. by apply list_elem_of_singleton.
Qed.

(** ** Refreshing a lease *)

(** Where [now + new_lifetime] is at least 3 and at most 2^32 - 4, the
    refresh is the specification's: it succeeds exactly when the mapping
    exists and the end of life is within three seconds of the expected one,
    a failure leaves the database as it was, and a success replaces the
    lifetime and the end of life and nothing else. *)
Lemma refresh_in_range now d i L E :
  0 ≤ L < 4294967296 → 0 ≤ E < 4294967296 → 3 ≤ now + L ≤ 4294967292 →
  ((pcp_mapping_refresh_lifetime now d i L E).1 = true
     ↔ is_Some (pcp_mapping_find d i) ∧ Z.abs (E - (now + L)) ≤ 3)
  ∧ ((pcp_mapping_refresh_lifetime now d i L E).1 = false →
     (pcp_mapping_refresh_lifetime now d i L E).2 = d)
  ∧ (∀ m, pcp_mapping_find d i = Some m →
          (pcp_mapping_refresh_lifetime now d i L E).1 = true →
          pcp_mapping_find (pcp_mapping_refresh_lifetime now d i L E).2 i
          = Some (with_lease m L E)).
Proof.
  intros HL HE Hexp.
  split; [|split; [apply refresh_fails_unchanged|]].
  - unfold pcp_mapping_refresh_lifetime.
    rewrite (u32_small (now + L)) by lia.
    rewrite (u32_small (now + L - 3)), (u32_small (now + L + 3)) by lia.
    destruct (Z.ltb_spec E (now + L - 3)) as [Hlo|Hlo]; simpl.
    { split; [done|]. intros [_ ?]. lia. }
    destruct (Z.gtb_spec E (now + L + 3)) as [Hhi|Hhi]; simpl.
    { split; [done|]. intros [_ ?]. lia. }
    destruct (pcp_mapping_find d i) as [m|]; simpl.
    + split; [|done]. intros _. split; [by eauto | lia].
    + split; [done|]. by intros [[? ?] _].
  - intros m Hfind Hok.
    destruct (refresh_success _ _ _ _ _ Hok) as (m' & _ & ->).
    rewrite (find_refresh_same d i m L E Hfind).
    by rewrite !u32_small by lia.
Qed.

(** The scenario of the specification: at [t0 + 10] the refresh to
    [t0 + 70] succeeds, the one to [t0 + 90] does not. *)
Example refresh_scenario :
  (pcp_mapping_refresh_lifetime 1010 scenario_store 10 60 1070).1 = true
  ∧ pcp_mapping_find scenario_refreshed 10 = Some (with_lease scenario_mapping 60 1070)
  ∧ (pcp_mapping_refresh_lifetime 1010 scenario_store 10 60 1090).1 = false.
Proof.
  destruct (refresh_in_range 1010 scenario_store 10 60 1070) as (Hiff & _ & Hnew);
    [lia..|].
  destruct (refresh_in_range 1010 scenario_store 10 60 1090) as (Hiff' & _ & _);
    [lia..|].
  assert (Hok : (pcp_mapping_refresh_lifetime 1010 scenario_store 10 60 1070).1 = true).
  { apply Hiff. rewrite scenario_store_find. split; [by eauto | lia]. }
  split; [done|]. split.
  - by apply Hnew; [apply scenario_store_find|].
  - destruct (pcp_mapping_refresh_lifetime 1010 scenario_store 10 60 1090).1 eqn:Hr; [|done].
    destruct Hiff' as [Hiff' _]. destruct (Hiff' eq_refl) as [_ Habs]. lia.
Qed.

(** C2. The tolerance test computes [expected - 3] and [expected + 3] in
    [u_int32_t]. At [now = 1700000000] with the lifetime 2594967295 the
    expected end of life is 4294967295 and [expected + 3] wraps to 2: the
    refresh of the existing mapping 10 to exactly the expected end of life,
    a deviation of 0 seconds, is refused. *)
Theorem refresh_rejects_matching_end_of_life :
  is_Some (pcp_mapping_find scenario_store 10)
  ∧ Z.abs (4294967295 - (1700000000 + 2594967295)) ≤ 3
  ∧ C.u_int32_t (C.u_int32_t (1700000000 + 2594967295) + 3) = 2
  ∧ (pcp_mapping_refresh_lifetime 1700000000 scenario_store 10 2594967295 4294967295).1
    = false.
Proof.
  split; [|split; [|split]].
  - rewrite scenario_store_find. eauto.
  - vm_compute. discriminate.
  - by vm_compute.
  - by vm_compute.
Qed.

(** ** The lease invariant *)

Lemma store_consistent_empty : store_consistent ∅.
Proof. intros id m H. by vm_compute in H. Qed.

(** The mapping a create leaves satisfies the equation when the second
    reading of the clock is the first. *)
Lemma lease_consistent_store d i nonce iip iport eip eport l op pr now m :
  pcp_mapping_find (pcp_mapping_store d i nonce iip iport eip eport l op pr now now) i = Some m →
  lease_consistent m.
Proof.
  rewrite find_store_same. intros [= <-]. unfold lease_consistent. simpl.
  by rewrite u32_add_idemp.
Qed.

Lemma store_consistent_add M now d i nonce iip iport eip eport l op pr :
  store_consistent d →
  store_consistent (pcp_mapping_add M now now d i nonce iip iport eip eport l op pr).2.
Proof.
  intros Hd. unfold pcp_mapping_add.
  destruct (_ && _); [done|].
  set (a := if i =? -1 then _ else _).
  destruct (pcp_mapping_find d a) eqn:Hfind; [done|]. simpl.
  intros id m Hm. destruct (decide (id = a)) as [->|Hne].
  - by eapply lease_consistent_store.
  - rewrite find_store_other in Hm by done. by eapply Hd.
Qed.

Lemma store_consistent_delete d i :
  store_consistent d → store_consistent (pcp_mapping_delete d i).2.
Proof.
  intros Hd. unfold pcp_mapping_delete.
  destruct (pcp_mapping_find d i) eqn:Hfind; [|done]. simpl.
  intros id m Hm. destruct (decide (id = i)) as [->|Hne].
  - by rewrite find_prune_same in Hm.
  - rewrite find_prune_other in Hm by done. by eapply Hd.
Qed.

Lemma store_consistent_deleteall d : store_consistent (pcp_mapping_deleteall d).2.
Proof. intros id m Hm. simpl in Hm. by rewrite find_prune_mappings in Hm. Qed.

Lemma store_consistent_refresh now d i L E m :
  store_consistent d →
  pcp_mapping_find d i = Some m →
  (pcp_mapping_refresh_lifetime now d i L E).1 = true →
  (store_consistent (pcp_mapping_refresh_lifetime now d i L E).2
   ↔ C.u_int32_t E = C.u_int32_t (start_of_life m + L)).
Proof.
  intros Hd Hfind Hok.
  destruct (refresh_success _ _ _ _ _ Hok) as (m' & Hfind' & ->).
  rewrite Hfind in Hfind'. injection Hfind' as <-.
  pose proof (find_refresh_same d i m L E Hfind) as Hnew.
  split.
  - intros Hc. specialize (Hc _ _ Hnew). unfold lease_consistent in Hc. simpl in Hc.
    rewrite Hc. unfold C.u_int32_t. by rewrite Zplus_mod_idemp_r.
  - intros HE id m' Hm'. destruct (decide (id = i)) as [->|Hne].
    + rewrite Hnew in Hm'. injection Hm' as <-. unfold lease_consistent. simpl.
      rewrite HE. unfold C.u_int32_t. by rewrite Zplus_mod_idemp_r.
    + rewrite find_refresh_other in Hm' by done. by eapply Hd.
Qed.

Lemma store_consistent_scenario : store_consistent scenario_store.
Proof. apply store_consistent_add, store_consistent_empty. Qed.

(** The stores of the three failures, read back. *)
Lemma ticked_store_find : pcp_mapping_find ticked_store 10 = Some ticked_mapping.
Proof. by vm_compute. Qed.

Lemma wrapped_store_find : pcp_mapping_find wrapped_store 10 = Some wrapped_mapping.
Proof. by vm_compute. Qed.

(** C3, as stated, fails in three ways.
    - On the scenario of the specification: mapping 10, created at 1000 with
      lifetime 120, is refreshed at 1010 to lifetime 60 and end of life 1070.
      The refresh succeeds and leaves start of life 1000, so the end of life
      1070 is not start of life plus lifetime, 1060.
    - On a create during which the clock ticks: with the readings 1000 and
      1001 and lifetime 120 the mapping is stored with start of life 1000
      and end of life 1121.
    - On a create whose end of life does not fit the field: at 1700000000
      with lifetime 2594967296 the mapping is stored with end of life 0,
      while start of life plus lifetime is 4294967296. *)
Lemma lease_invariant_fails :
  (store_consistent scenario_store
   ∧ (pcp_mapping_refresh_lifetime 1010 scenario_store 10 60 1070).1 = true
   ∧ ¬ (∀ id m, pcp_mapping_find scenario_refreshed id = Some m →
                end_of_life m = start_of_life m + lifetime m))
  ∧ ((add_at_clock 1000 1001 ∅ 10 120).1 = true
     ∧ ¬ (∀ id m, pcp_mapping_find ticked_store id = Some m →
                  end_of_life m = start_of_life m + lifetime m))
  ∧ ((add_at_clock 1700000000 1700000000 ∅ 10 2594967296).1 = true
     ∧ ¬ (∀ id m, pcp_mapping_find wrapped_store id = Some m →
                  end_of_life m = start_of_life m + lifetime m)).
Proof.
  split; [|split].
  - split; [apply store_consistent_scenario|].
    destruct refresh_scenario as (Hok & Hfind & _).
    split; [done|].
    intros Hinv. specialize (Hinv _ _ Hfind). by vm_compute in Hinv.
  - split; [by vm_compute|].
    intros Hinv. specialize (Hinv _ _ ticked_store_find). by vm_compute in Hinv.
  - split; [by vm_compute|].
    intros Hinv. specialize (Hinv _ _ wrapped_store_find). by vm_compute in Hinv.
Qed.

(** C3, amended. Take a store in which every mapping has
    [end_of_life == start_of_life + lifetime] in the arithmetic of the
    [u_int32_t] fields.
    - [pcp_mapping_add], when its two readings of the clock are the same,
      leaves such a store: the mapping it creates satisfies the equation and
      the others are as they were.
    - [pcp_mapping_delete] and [pcp_mapping_deleteall] leave such a store.
    - A successful [pcp_mapping_refresh_lifetime (i, L, E)] sets the lifetime
      of mapping [i] to [L] and its end of life to [E], leaves its start of
      life and its other fields, and leaves every other mapping; the store it
      leaves is such a store exactly when [E] is the start of life plus [L]. *)
Theorem lease_invariant_by_operation M now d :
  store_consistent d →
  (∀ i nonce iip iport eip eport l op pr now',
     now' = now →
     store_consistent (pcp_mapping_add M now now' d i nonce iip iport eip eport l op pr).2)
  ∧ (∀ i, store_consistent (pcp_mapping_delete d i).2)
  ∧ store_consistent (pcp_mapping_deleteall d).2
  ∧ (∀ i L E m,
       0 ≤ L < 4294967296 → 0 ≤ E < 4294967296 →
       pcp_mapping_find d i = Some m →
       (pcp_mapping_refresh_lifetime now d i L E).1 = true →
       let d' := (pcp_mapping_refresh_lifetime now d i L E).2 in
       ∃ m', pcp_mapping_find d' i = Some m'
             ∧ lifetime m' = L
             ∧ end_of_life m' = E
             ∧ start_of_life m' = start_of_life m
             ∧ m' = with_lease m L E
             ∧ (∀ j, j ≠ i → pcp_mapping_find d' j = pcp_mapping_find d j)
             ∧ (lease_consistent m' ↔ E = C.u_int32_t (start_of_life m + L))
             ∧ (store_consistent d' ↔ E = C.u_int32_t (start_of_life m + L))).
Proof.
  intros Hd. split; [|split; [|split]].
  - intros i nonce iip iport eip eport l op pr now' ->. by apply store_consistent_add.
  - intros. by apply store_consistent_delete.
  - apply store_consistent_deleteall.
  - intros i L E m HL HE Hfind Hok d'.
    pose proof (store_consistent_refresh now d i L E m Hd Hfind Hok) as Hiff.
    rewrite (u32_small E) in Hiff by done. fold d' in Hiff.
    destruct (refresh_success _ _ _ _ _ Hok) as (m0 & _ & Hd').
    fold d' in Hd'.
    assert (Hnew : pcp_mapping_find d' i = Some (with_lease m L E)).
    { rewrite Hd', (find_refresh_same d i m L E Hfind). by rewrite !u32_small by done. }
    exists (with_lease m L E).
    split; [done|]. do 4 (split; [done|]).
    split; [intros j Hj; rewrite Hd'; by apply find_refresh_other|].
    split; [|done].
    unfold lease_consistent. by simpl.
Qed.

Lemma lease_invariant_by_operation_witness :
  store_consistent scenario_store
  ∧ store_consistent (add_at scenario_store (-1) 300).2
  ∧ store_consistent (pcp_mapping_delete scenario_store 10).2
  ∧ (∃ m', pcp_mapping_find scenario_refreshed 10 = Some m'
           ∧ lifetime m' = 60 ∧ end_of_life m' = 1070 ∧ start_of_life m' = 1000
           ∧ ¬ store_consistent scenario_refreshed).
Proof.
  split; [apply store_consistent_scenario|].
  destruct (lease_invariant_by_operation C.INT_MAX 1010 scenario_store
              store_consistent_scenario) as (Hadd & Hdel & _ & Hrefresh).
  split.
  { unfold add_at, add_at_clock.
    destruct (lease_invariant_by_operation C.INT_MAX 1000 scenario_store
                store_consistent_scenario) as (Hadd' & _).
    by apply Hadd'. }
  split; [apply Hdel|].
  destruct (Hrefresh 10 60 1070 scenario_mapping) as (m' & Hfind & HL & HE & Hs & _ & _ & _ & Hiff);
    [lia | lia | apply scenario_store_find | by vm_compute |].
  exists m'. split; [exact Hfind|]. split; [exact HL|]. split; [exact HE|].
  split; [by rewrite Hs|].
  intros Hc. apply Hiff in Hc. by vm_compute in Hc.
Defined.

(** ** Creating a mapping *)

(** C5, as stated, fails in two ways. With the clock ticking from 1000 to
    1001 between the two readings, the mapping created with lifetime 120 has
    start of life 1000 and end of life 1121: no [now] is both its start of
    life and 120 before its end of life. At 1700000000 with the lifetime
    2594967296 the end of life stored is 0, not 4294967296. *)
Lemma pcp_mapping_add_lease_differs :
  ((add_at_clock 1000 1001 ∅ 10 120).1 = true
   ∧ ∃ m, pcp_mapping_find ticked_store 10 = Some m
          ∧ ¬ ∃ t, start_of_life m = t ∧ end_of_life m = t + 120)
  ∧ ((add_at_clock 1700000000 1700000000 ∅ 10 2594967296).1 = true
     ∧ ∃ m, pcp_mapping_find wrapped_store 10 = Some m
            ∧ ¬ ∃ t, start_of_life m = t ∧ end_of_life m = t + 2594967296).
Proof.
  split.
  - split; [by vm_compute|]. exists ticked_mapping.
    split; [apply ticked_store_find|]. simpl. intros (t & <- & Hend). lia.
  - split; [by vm_compute|]. exists wrapped_mapping.
    split; [apply wrapped_store_find|]. simpl. intros (t & <- & Hend). lia.
Qed.

(** C5, amended. [pcp_mapping_add] works on the index the allocator answers
    when the argument is -1 and on the argument otherwise. It returns true
    exactly when no mapping has that index (and the allocator did not answer
    a negative number); a call that returns false leaves the database as it
    was; a call that returns true leaves a mapping of that index, and leaves
    every other mapping as it was. The start of life of the new mapping is
    [now], the first reading of the clock, and, when the second reading is
    [now] as well, its end of life is [now + lifetime], both as [u_int32_t]
    values: exactly these numbers when [now + lifetime] is below 2^32. *)
Theorem pcp_mapping_add_spec M now now' d i nonce iip iport eip eport l op pr :
  let allocated := if i =? -1 then next_mapping_id M d else i in
  let r := pcp_mapping_add M now now' d i nonce iip iport eip eport l op pr in
  (r.1 = true ↔ pcp_mapping_find d allocated = None ∧ ¬ (i = -1 ∧ allocated < 0))
  ∧ (r.1 = false → r.2 = d)
  ∧ (r.1 = true →
     ∃ m, pcp_mapping_find r.2 allocated = Some m
          ∧ index m = allocated
          ∧ lifetime m = C.u_int32_t l
          ∧ start_of_life m = C.u_int32_t now
          ∧ (now' = now →
             end_of_life m = C.u_int32_t (now + l)
             ∧ (0 ≤ now ∧ 0 ≤ l ∧ now + l < 4294967296 →
                start_of_life m = now ∧ end_of_life m = now + l))
          ∧ ∀ j, j ≠ allocated → pcp_mapping_find r.2 j = pcp_mapping_find d j).
Proof.
  intros allocated r.
  split; [|split; [apply add_fails_unchanged|]].
  - subst r. unfold pcp_mapping_add. fold allocated.
    destruct (Z.eqb_spec i (-1)) as [Hauto|Hauto];
      destruct (Z.ltb_spec allocated 0) as [Hneg|Hneg]; simpl.
    + split; [done|]. intros [_ Hn]. exfalso. apply Hn. by split.
    + destruct (pcp_mapping_find d allocated); simpl.
      * split; [done | by intros [? _]].
      * split; [|done]. intros _. split; [done|]. intros [_ ?]. lia.
    + destruct (pcp_mapping_find d allocated); simpl.
      * split; [done | by intros [? _]].
      * split; [|done]. intros _. split; [done|]. by intros [? _].
    + destruct (pcp_mapping_find d allocated); simpl.
      * split; [done | by intros [? _]].
      * split; [|done]. intros _. split; [done|]. by intros [? _].
  - subst r. unfold pcp_mapping_add. fold allocated.
    destruct (_ && _); [done|].
    destruct (pcp_mapping_find d allocated); [done|]. simpl. intros _.
    eexists. split; [apply find_store_same|]. simpl.
    do 3 (split; [done|]).
    split; [| intros j Hj; by apply find_store_other].
    intros ->. split; [done|].
    intros (? & ? & ?). by rewrite !u32_small by lia.
Qed.

Lemma pcp_mapping_add_spec_witness :
  ∃ m, pcp_mapping_find scenario_store 10 = Some m
       ∧ start_of_life m = 1000 ∧ end_of_life m = 1120.
Proof.
  destruct (pcp_mapping_add_spec C.INT_MAX 1000 1000 ∅ 10 (1, 2, 3) 100 4000 200 5000 120 1 6)
    as (_ & _ & Hok).
  destruct Hok as (m & Hfind & _ & _ & _ & Hlease & _); [by vm_compute|].
  destruct (Hlease eq_refl) as (_ & Hexact).
  exists m. split; [exact Hfind|]. apply Hexact. lia.
Defined.

(** The scenario: index 10 at [t0 = 1000] with lifetime 120 ends at
    [t0 + 120]; a second mapping of index 10 is refused. *)
Example pcp_mapping_add_scenario :
  (add_at ∅ 10 120).1 = true
  ∧ pcp_mapping_find scenario_store 10 = Some scenario_mapping
  ∧ (add_at scenario_store 10 300).1 = false
  ∧ (add_at scenario_store 10 300).2 = scenario_store.
Proof.
  split; [by vm_compute|]. split; [apply scenario_store_find|].
  assert (Hfail : (add_at scenario_store 10 300).1 = false) by by vm_compute.
  split; [done | by apply add_fails_unchanged].
Qed.

(** ** The remaining lifetime *)

(** The test of [pcp_mapping_remaining_lifetime_get], operand by operand. *)
Lemma or_else_true (b : C.outcome bool) : C.or_else (C.Returns true) b = C.Returns true.
Proof. done. Qed.

Lemma or_else_false (b : C.outcome bool) : C.or_else (C.Returns false) b = b.
Proof. done. Qed.

Lemma remaining_lifetime_get_Some time m :
  pcp_mapping_remaining_lifetime_get time (Some m)
  = C.Returns (if end_of_life m <=? C.u_int32_t time then 0
               else C.u_int32_t (end_of_life m - C.u_int32_t time)).
Proof.
  unfold pcp_mapping_remaining_lifetime_get, end_of_life_reached.
  cbn [C.is_null]. rewrite or_else_false.
  cbv [mbind outcome_bind C.bind C.deref].
  by destruct (end_of_life m <=? C.u_int32_t time).
Qed.

(** C6. For a mapping whose end of life is [t] and a query at [now] (the
    clock as the [u_int32_t] the function reads it into),
    [pcp_mapping_remaining_lifetime_get] returns [max (0, t - now)]: 0 at
    or after [t], [t - now] before it, never a negative number. *)
Theorem remaining_lifetime_spec time m :
  0 ≤ end_of_life m < 4294967296 →
  let now := C.u_int32_t time in
  let r := pcp_mapping_remaining_lifetime_get time (Some m) in
  r = C.Returns (Z.max 0 (end_of_life m - now))
  ∧ (end_of_life m ≤ now → r = C.Returns 0)
  ∧ (now < end_of_life m → r = C.Returns (end_of_life m - now))
  ∧ ∃ v, r = C.Returns v ∧ 0 ≤ v.
Proof.
  intros Ht now r. subst r. rewrite remaining_lifetime_get_Some. fold now.
  pose proof (u32_range time) as Hnow. fold now in Hnow.
  destruct (Z.leb_spec (end_of_life m) now) as [Hle|Hlt].
  - split; [f_equal; lia|]. split; [done|]. split; [lia|].
    exists 0. split; [done | lia].
  - rewrite u32_small by lia.
    split; [f_equal; lia|]. split; [lia|]. split; [done|].
    eexists. split; [done | lia].
Qed.

Lemma remaining_lifetime_spec_witness :
  0 ≤ end_of_life scenario_mapping < 4294967296
  ∧ pcp_mapping_remaining_lifetime_get 1150 (Some scenario_mapping) = C.Returns 0
  ∧ pcp_mapping_remaining_lifetime_get 1100 (Some scenario_mapping) = C.Returns 20.
Proof.
  assert (H : 0 ≤ end_of_life scenario_mapping < 4294967296) by (simpl; lia).
  split; [exact H|]. split.
  - destruct (remaining_lifetime_spec 1150 scenario_mapping H) as (_ & H0 & _).
    apply H0. vm_compute. discriminate.
  - destruct (remaining_lifetime_spec 1100 scenario_mapping H) as (_ & _ & H1 & _).
    apply H1. reflexivity.
Defined.

(** C10. Called with the null handle, [pcp_mapping_remaining_lifetime_get]
    returns 0 and does not read through the handle: the first operand of its
    test, [!mapping], is true, and the second, [mapping->end_of_life <= now],
    which on the null handle is a null dereference, is not evaluated. The
    call returns for every handle, null or not, with a [u_int32_t]; for a
    handle that is not null the result is the one the mapping's end of life
    decides, which is not 0 before the end of life. *)
Theorem remaining_lifetime_null time :
  let now := C.u_int32_t time in
  pcp_mapping_remaining_lifetime_get time None = C.Returns 0
  ∧ C.is_null (None : option pcp_mapping) = true
  ∧ end_of_life_reached now None = C.NullDereference
  ∧ (∀ mapping, pcp_mapping_remaining_lifetime_get time mapping ≠ C.NullDereference)
  ∧ (∀ mapping, ∃ r, pcp_mapping_remaining_lifetime_get time mapping = C.Returns r
                     ∧ 0 ≤ r < 4294967296)
  ∧ (∀ m, now < end_of_life m < 4294967296 →
          pcp_mapping_remaining_lifetime_get time (Some m)
          = C.Returns (end_of_life m - now)
          ∧ end_of_life m - now ≠ 0).
Proof.
  intros now.
  assert (Hret : ∀ mapping, ∃ r, pcp_mapping_remaining_lifetime_get time mapping = C.Returns r
                                 ∧ 0 ≤ r < 4294967296).
  { intros [m|].
    - rewrite remaining_lifetime_get_Some.
      destruct (Z.leb_spec (end_of_life m) (C.u_int32_t time)).
      + exists 0. split; [done | lia].
      + eexists. split; [done|]. apply u32_range.
    - exists 0. split; [done | lia]. }
  split; [done|]. split; [done|]. split; [done|].
  split; [|split; [exact Hret|]].
  - intros mapping. destruct (Hret mapping) as (r & -> & _). discriminate.
  - intros m Hm. rewrite remaining_lifetime_get_Some. fold now.
    pose proof (u32_range time) as Hnow. fold now in Hnow.
    destruct (Z.leb_spec (end_of_life m) now) as [Hle|Hlt]; [lia|].
    rewrite u32_small by lia. split; [done | lia].
Qed.

(** ** Listing the mappings *)

Lemma insert_sorted_perm (l : list pcp_mapping) x :
  GLib.g_list_insert_sorted l x mapping_index_cmp ≡ₚ x :: l.
Proof.
  induction l as [|y l IH]; simpl; [done|].
  destruct (_ >? 0); [|done].
  rewrite IH. apply Permutation_swap.
Qed.

(** Between indices that are non-negative [int]s the subtraction of
    [mapping_index_cmp] is exact, and the insertion keeps a sorted list
    sorted. *)
Lemma insert_sorted_sorted (l : list pcp_mapping) x :
  Forall (λ y, 0 ≤ index y ≤ C.INT_MAX) (x :: l) →
  StronglySorted by_index l →
  StronglySorted by_index (GLib.g_list_insert_sorted l x mapping_index_cmp).
Proof.
  intros Hrange Hs. induction Hs as [|y l Hs IH Hy]; simpl.
  - repeat constructor.
  - apply Forall_cons in Hrange as [Hx Hrange].
    pose proof Hrange as [Hyr Hlr]%Forall_cons.
    unfold mapping_index_cmp at 1.
    rewrite int_small by (unfold C.INT_MAX in *; lia).
    destruct (Z.gtb_spec (index x - index y) 0) as [Hgt|Hle].
    + constructor.
      * apply IH. by constructor.
      * rewrite insert_sorted_perm. constructor; [unfold by_index; lia | done].
    + constructor; [by constructor|].
      constructor; [unfold by_index; lia|].
      eapply Forall_impl; [exact Hy|]. unfold by_index. intros z Hz. lia.
Qed.

(** The loop of [pcp_mapping_getall], from any sorted list on. *)
Lemma getall_fold d (ids : list Z) (acc : list pcp_mapping) :
  (∀ id, id ∈ ids → 0 ≤ id ≤ C.INT_MAX) →
  Forall (λ y, 0 ≤ index y ≤ C.INT_MAX) acc →
  StronglySorted by_index acc →
  let r := fold_left
             (λ mappings id,
                match pcp_mapping_find d id with
                | Some mapping => GLib.g_list_insert_sorted mappings mapping mapping_index_cmp
                | None => mappings
                end) ids acc in
  StronglySorted by_index r ∧ r ≡ₚ acc ++ omap (pcp_mapping_find d) ids.
Proof.
  revert acc. induction ids as [|id ids IH]; intros acc Hids Hacc Hs; simpl.
  - split; [done|]. by rewrite app_nil_r.
  - assert (Hrest : ∀ id', id' ∈ ids → 0 ≤ id' ≤ C.INT_MAX)
      by (intros id' Hin; apply Hids; by right).
    destruct (pcp_mapping_find d id) as [m|] eqn:Hfind.
    + assert (Hm : 0 ≤ index m ≤ C.INT_MAX).
      { rewrite (find_index _ _ _ Hfind). apply Hids. by left. }
      destruct (IH (GLib.g_list_insert_sorted acc m mapping_index_cmp)) as [Hsorted Hperm].
      * done.
      * rewrite insert_sorted_perm. by constructor.
      * apply insert_sorted_sorted; [by constructor | done].
      * split; [done|]. rewrite Hperm, insert_sorted_perm.
        by rewrite <- Permutation_middle.
    + by apply IH.
Qed.

(** In a store whose identifiers are non-negative [int]s,
    [pcp_mapping_getall] returns the mappings found for the identifiers in
    the store, each once, in ascending order of their index. *)
Lemma pcp_mapping_getall_sorted d :
  (∀ id, id ∈ apteryx_search_mappings d → 0 ≤ id ≤ C.INT_MAX) →
  StronglySorted by_index (pcp_mapping_getall d)
  ∧ pcp_mapping_getall d ≡ₚ omap (pcp_mapping_find d) (apteryx_search_mappings d)
  ∧ (∀ m, m ∈ pcp_mapping_getall d ↔ pcp_mapping_find d (index m) = Some m).
Proof.
  intros Hids.
  destruct (getall_fold d (apteryx_search_mappings d) [] Hids) as [Hs Hp];
    [constructor | constructor |].
  fold (pcp_mapping_getall d) in Hs, Hp. simpl in Hp.
  split; [done|]. split; [done|].
  intros m. rewrite Hp, list_elem_of_omap. split.
  - intros (id & _ & Hfind). by rewrite (find_index _ _ _ Hfind).
  - intros Hfind. exists (index m). split; [|done].
    apply find_in_search. rewrite Hfind. eauto.
Qed.

Lemma pcp_mapping_getall_sorted_witness :
  (∀ id, id ∈ apteryx_search_mappings three_store → 0 ≤ id ≤ C.INT_MAX)
  ∧ StronglySorted by_index (pcp_mapping_getall three_store).
Proof.
  assert (H : ∀ id, id ∈ apteryx_search_mappings three_store → 0 ≤ id ≤ C.INT_MAX).
  { apply Forall_forall. apply (bool_decide_unpack _). vm_compute. exact I. }
  split; [exact H|].
  apply (pcp_mapping_getall_sorted three_store H).
Defined.

(** The three mappings created as 30, 10, 20 are listed as 10, 20, 30. *)
Example pcp_mapping_getall_three :
  map index (pcp_mapping_getall three_store) = [10; 20; 30].
Proof. by vm_compute. Qed.

(** A list whose indices read [INT_MAX], -3 is not in ascending order. *)
Lemma not_sorted_by_index (l : list pcp_mapping) :
  map index l = [C.INT_MAX; -3] → ¬ StronglySorted by_index l.
Proof.
  destruct l as [|x [|y l]]; [done..|].
  intros [= Hx Hy _] Hs.
  apply StronglySorted_inv in Hs as [_ Hall].
  apply Forall_cons in Hall as [Hxy _].
  unfold by_index, C.INT_MAX in *. lia.
Qed.

(** C7. [mapping_index_cmp] subtracts the two indices in [int]. After
    [pcp_mapping_add] has created a mapping of index [INT_MAX] and one of
    index -3, both calls returning true, the difference [-3 - INT_MAX] wraps
    to 2147483646 and [INT_MAX - -3] to -2147483646: the comparison takes -3
    for the greater index, and [pcp_mapping_getall] lists [INT_MAX] before
    -3, whichever of the two the search hands out first. The list is not in
    ascending order of the index. *)
Theorem pcp_mapping_getall_out_of_order :
  (add_at ∅ C.INT_MAX 120).1 = true
  ∧ (add_at full_store (-3) 120).1 = true
  ∧ map index (pcp_mapping_getall out_of_order_store) = [C.INT_MAX; -3]
  ∧ ¬ StronglySorted by_index (pcp_mapping_getall out_of_order_store)
  ∧ (∀ a b, index a = C.INT_MAX → index b = -3 →
            mapping_index_cmp b a = 2147483646
            ∧ mapping_index_cmp a b = -2147483646
            ∧ GLib.g_list_insert_sorted [a] b mapping_index_cmp = [a; b]
            ∧ GLib.g_list_insert_sorted [b] a mapping_index_cmp = [a; b]).
Proof.
  assert (Hlist : map index (pcp_mapping_getall out_of_order_store) = [C.INT_MAX; -3])
    by by vm_compute.
  split; [by vm_compute|]. split; [by vm_compute|]. split; [exact Hlist|]. split.
  - exact (not_sorted_by_index _ Hlist).
  - intros a b Ha Hb.
    assert (Hba : mapping_index_cmp b a = 2147483646)
      by (unfold mapping_index_cmp; rewrite Ha, Hb; reflexivity).
    assert (Hab : mapping_index_cmp a b = -2147483646)
      by (unfold mapping_index_cmp; rewrite Ha, Hb; reflexivity).
    cbn [GLib.g_list_insert_sorted]. rewrite Hba, Hab. by repeat split.
Qed.

(** ** The R bit *)

Lemma testbit_R_bit i : Z.testbit 128 i = (i =? 7).
Proof.
  destruct (Z.ltb_spec i 0) as [Hneg|Hnn].
  - rewrite Z.testbit_neg_r by done. symmetry. apply Z.eqb_neq. lia.
  - change 128 with (2 ^ 7). rewrite Z.pow2_bits_eqb by lia. apply Z.eqb_sym.
Qed.

Lemma testbit_R_REQUEST opcode i :
  Z.testbit (R_REQUEST opcode) i = if i =? 7 then false else Z.testbit opcode i.
Proof.
  unfold R_REQUEST. change (Z.shiftl 1 7) with 128.
  destruct (Z.ltb_spec i 0) as [Hneg|Hnn].
  - rewrite !Z.testbit_neg_r by done. by destruct (i =? 7).
  - rewrite Z.land_spec, Z.lnot_spec, testbit_R_bit by done.
    destruct (i =? 7); simpl; [apply andb_false_r | apply andb_true_r].
Qed.

Lemma testbit_R_RESPONSE opcode i :
  Z.testbit (R_RESPONSE opcode) i = if i =? 7 then true else Z.testbit opcode i.
Proof.
  unfold R_RESPONSE. change (Z.shiftl 1 7) with 128.
  rewrite Z.lor_spec, testbit_R_bit.
  destruct (i =? 7); simpl; [apply orb_true_r | apply orb_false_r].
Qed.

(** C8. For every opcode, [R_REQUEST] is the opcode with bit 7 cleared and
    [R_RESPONSE] the opcode with bit 7 set: the two differ in bit 7 and in
    nothing else, they agree on the seven bits of the opcode number, and for
    MAP (1) and PEER (2) they are 1 and 129, 2 and 130. *)
Theorem R_bit_spec opcode :
  (∀ i, Z.testbit (R_REQUEST opcode) i = if i =? 7 then false else Z.testbit opcode i)
  ∧ (∀ i, Z.testbit (R_RESPONSE opcode) i = if i =? 7 then true else Z.testbit opcode i)
  ∧ Z.lxor (R_REQUEST opcode) (R_RESPONSE opcode) = 128
  ∧ Z.land (R_REQUEST opcode) 127 = Z.land (R_RESPONSE opcode) 127
  ∧ R_REQUEST MAP_OPCODE = 1 ∧ R_RESPONSE MAP_OPCODE = 129
  ∧ R_REQUEST PEER_OPCODE = 2 ∧ R_RESPONSE PEER_OPCODE = 130.
Proof.
  split; [apply testbit_R_REQUEST|]. split; [apply testbit_R_RESPONSE|].
  split; [|split; [|done]].
  - apply Z.bits_inj'. intros i _.
    rewrite Z.lxor_spec, testbit_R_REQUEST, testbit_R_RESPONSE, testbit_R_bit.
    destruct (i =? 7); simpl; [done | apply xorb_nilpotent].
  - apply Z.bits_inj'. intros i _.
    rewrite !Z.land_spec, testbit_R_REQUEST, testbit_R_RESPONSE.
    by destruct (Z.eqb_spec i 7) as [->|].
Qed.

(** ** Processing a MAP request *)

(** C4. [process_map_request] does not look at the request: whatever the
    serialization, the response it serializes has the result code SUCCESS
    and the lifetime 9001, and so has the response to a request of protocol
    version 1, where the specification asks for UNSUPP_VERSION and 0. *)
Theorem process_map_request_ignores_version
    (deserialize_map_request : list Z → map_request)
    (serialize_map_response : map_response → list Z)
    (in6_addr_at : string → Z) (epoch_time : Z) (pkt_buf : list Z) :
  let map_resp :=
    Pcpd.process_map_request_response in6_addr_at epoch_time
      (deserialize_map_request pkt_buf) in
  let version_1_resp :=
    Pcpd.process_map_request_response in6_addr_at epoch_time version_1_request in
  Pcpd.process_map_request deserialize_map_request serialize_map_response
    in6_addr_at epoch_time pkt_buf = serialize_map_response map_resp
  ∧ resp_result_code (map_resp_header map_resp) = SUCCESS
  ∧ resp_lifetime (map_resp_header map_resp) = 9001
  ∧ req_version (map_req_header version_1_request) ≠ PCP_VERSION
  ∧ resp_result_code (map_resp_header version_1_resp) = SUCCESS
  ∧ resp_lifetime (map_resp_header version_1_resp) = 9001.
Proof. by repeat split. Qed.

(** ** Loading the configuration *)

Lemma call_returns {W A : Type} (saved_cbs : option (pcp_callbacks W))
    (f : pcp_callbacks W → option (A → W → W)) (arg : A) (w : W) cbs :
  saved_cbs = Some cbs → ∃ w', call W saved_cbs f arg w = C.Returns w'.
Proof. intros ->. unfold call. simpl. eauto. Qed.

Lemma call_checked_returns {W A : Type} (saved_cbs : option (pcp_callbacks W))
    (f : pcp_callbacks W → option (A → W → W)) (arg : A) (w : W) :
  ∃ w', call_checked W saved_cbs f arg w = C.Returns w'.
Proof.
  unfold call_checked. destruct saved_cbs as [cbs|]; [|by eauto].
  by eapply call_returns.
Qed.

Ltac checked_call_returns :=
  match goal with
  | |- context [call_checked ?W ?s ?f ?a ?w] =>
      destruct (call_checked_returns s f a w) as [? ->]
  end.

Lemma pcp_load_config_faults {W : Type} defaults d (saved_cbs : option (pcp_callbacks W)) w :
  pcp_load_config W defaults d saved_cbs w = C.NullDereference
  ↔ pcp_initialized_get d = true ∧ saved_cbs = None.
Proof.
  unfold pcp_load_config. destruct (pcp_initialized_get d).
  - destruct saved_cbs as [cbs|]; simpl.
    + split; [done | by intros [_ ?]].
    + done.
  - simpl. split; [done | by intros [? _]].
Qed.

Lemma pcp_config_changed_safe {W : Type} d (saved_cbs : option (pcp_callbacks W)) path w :
  pcp_config_changed W d saved_cbs path w ≠ C.NullDereference.
Proof.
  unfold pcp_config_changed.
  repeat case_match; try done; by checked_call_returns.
Qed.

Lemma pcp_mapping_changed_safe {W : Type} d (saved_cbs : option (pcp_callbacks W)) path w :
  pcp_mapping_changed W d saved_cbs path w ≠ C.NullDereference.
Proof.
  unfold pcp_mapping_changed.
  repeat case_match; try done; by checked_call_returns.
Qed.

(** The first [pcp_load_config] on an empty database marks it initialized. *)
Lemma pcp_load_config_first {W : Type} defaults (w : W) :
  ∃ d, pcp_load_config W defaults ∅ (saved_cbs_initial W) w = C.Returns (true, d, w)
       ∧ pcp_initialized_get d = true.
Proof.
  eexists. split; [reflexivity|].
  unfold pcp_initialized_get, config_set_default, pcp_initialized_set, pcp_enabled_set,
    map_support_set, peer_support_set, third_party_support_set, proxy_support_set,
    upnp_igd_pcp_iwf_support_set, min_mapping_lifetime_set, max_mapping_lifetime_set,
    prefer_failure_req_rate_limit_set.
  db_unfold. cbv zeta. by db_lookup.
Qed.

(** C9. [pcp_load_config] reads through the null pointer exactly when the
    database is marked initialized and no callback table is registered;
    [pcp_config_changed] and [pcp_mapping_changed], which test [saved_cbs]
    first, never do. The faulting state is reachable from the initial one
    ([saved_cbs == NULL], empty database): a first [pcp_load_config] marks
    the database initialized, a second one faults. *)
Theorem pcp_load_config_null_dereference (W : Type) defaults d
    (saved_cbs : option (pcp_callbacks W)) (w : W) :
  (pcp_load_config W defaults d saved_cbs w = C.NullDereference
   ↔ pcp_initialized_get d = true ∧ saved_cbs = None)
  ∧ (∀ path, pcp_config_changed W d saved_cbs path w ≠ C.NullDereference)
  ∧ (∀ path, pcp_mapping_changed W d saved_cbs path w ≠ C.NullDereference)
  ∧ (∃ d1, pcp_load_config W defaults ∅ (saved_cbs_initial W) w = C.Returns (true, d1, w)
           ∧ pcp_load_config W defaults d1 (saved_cbs_initial W) w = C.NullDereference).
Proof.
  split; [apply pcp_load_config_faults|].
  split; [intros; apply pcp_config_changed_safe|].
  split; [intros; apply pcp_mapping_changed_safe|].
  destruct (pcp_load_config_first defaults w) as (d1 & Hfirst & Hinit).
  exists d1. split; [done|]. by apply pcp_load_config_faults.
Qed.

(** The daemon registers its callbacks before it loads the configuration:
    its [pcp_load_config] returns. *)
Example pcpd_load_config_returns defaults d (config : Pcpd.pcp_config) :
  pcp_load_config Pcpd.pcp_config defaults d
    (pcp_register_cb Pcpd.pcp_config (Some Pcpd.callbacks)).2 config
  ≠ C.NullDereference.
Proof. intros [_ Hnull]%pcp_load_config_faults. discriminate. Qed.

(** * Further properties of the code *)

(** ** The identifiers in use *)

Lemma search_ext (d d' : db) :
  (∀ id, id ∈ apteryx_search_mappings d' ↔ id ∈ apteryx_search_mappings d) →
  apteryx_search_mappings d' = apteryx_search_mappings d.
Proof.
  intros H. unfold apteryx_search_mappings in *. f_equal.
  apply set_eq. intros id. specialize (H id). by rewrite !elem_of_elements in H.
Qed.

Lemma search_prune d i id :
  id ∈ apteryx_search_mappings (apteryx_prune d (MAPPING_PATH i))
  ↔ (id ∈ apteryx_search_mappings d ∧ id ≠ i).
Proof.
  rewrite !elem_of_search. split.
  - intros [k Hk]. destruct (decide (id = i)) as [->|Hne].
    + rewrite lookup_prune_same in Hk. by destruct Hk.
    + rewrite lookup_prune_other in Hk by congruence. eauto.
  - intros [[k Hk] Hne]. exists k. by rewrite lookup_prune_other by congruence.
Qed.

Lemma search_prune_mappings d : apteryx_search_mappings (apteryx_prune_mappings d) = [].
Proof.
  apply elem_of_nil_inv. intros id [k Hk]%elem_of_search.
  rewrite lookup_prune_mappings in Hk. by destruct Hk.
Qed.

Lemma lookup_refresh_other (d : db) i L E p k :
  (p, k) ≠ (MAPPING_PATH i, Some LIFETIME_KEY) →
  (p, k) ≠ (MAPPING_PATH i, Some END_OF_LIFE_KEY) →
  apteryx_set_int (apteryx_set_int d (MAPPING_PATH i) LIFETIME_KEY L)
    (MAPPING_PATH i) END_OF_LIFE_KEY E !! (p, k) = d !! (p, k).
Proof. intros H1 H2. db_unfold. by rewrite !lookup_insert_ne by done. Qed.

Lemma search_refresh d i L E id :
  is_Some (pcp_mapping_find d i) →
  id ∈ apteryx_search_mappings
         (apteryx_set_int (apteryx_set_int d (MAPPING_PATH i) LIFETIME_KEY L)
            (MAPPING_PATH i) END_OF_LIFE_KEY E)
  ↔ id ∈ apteryx_search_mappings d.
Proof.
  intros Hfind. rewrite !elem_of_search. split.
  - intros [k Hk]. destruct (decide (id = i)) as [->|Hne].
    + exists None. by apply find_is_Some.
    + exists k. by rewrite lookup_refresh_other in Hk by congruence.
  - intros [k Hk]. destruct (decide (id = i)) as [->|Hne].
    + exists None. rewrite lookup_refresh_other by done. by apply find_is_Some.
    + exists k. by rewrite lookup_refresh_other by congruence.
Qed.

(** ** [pcp_mapping_delete] *)

(** X1. [pcp_mapping_delete] returns true exactly when the mapping exists;
    a call that returns false leaves the database as it was. After the call
    the mapping is not found, a second delete returns false, and after a
    successful call the identifier is gone from the search while every other
    mapping and the configuration are as before. *)
Theorem pcp_mapping_delete_spec d i :
  let r := pcp_mapping_delete d i in
  (r.1 = true ↔ is_Some (pcp_mapping_find d i))
  ∧ (r.1 = false → r.2 = d)
  ∧ pcp_mapping_find r.2 i = None
  ∧ (r.1 = true →
     ∀ id, id ∈ apteryx_search_mappings r.2 ↔ (id ∈ apteryx_search_mappings d ∧ id ≠ i))
  ∧ (∀ j, j ≠ i → pcp_mapping_find r.2 j = pcp_mapping_find d j)
  ∧ (∀ k, r.2 !! (CONFIG_PATH, k) = d !! (CONFIG_PATH, k))
  ∧ (pcp_mapping_delete r.2 i).1 = false.
Proof.
  intros r. subst r. unfold pcp_mapping_delete.
  destruct (pcp_mapping_find d i) as [m|] eqn:Hfind; simpl.
  - split; [split; [by eauto | done]|]. split; [done|].
    split; [apply find_prune_same|].
    split; [intros _ id; apply search_prune|].
    split; [intros j Hj; by apply find_prune_other|].
    split; [intros k; by apply lookup_prune_other|].
    by rewrite find_prune_same.
  - split; [split; [done | by intros [? ?]]|].
    repeat (split; [done|]). by rewrite Hfind.
Qed.

(** X2. [pcp_mapping_deleteall] (and [pcp_deinit], which is it) returns
    true and leaves no mapping: nothing is found, the search and the listing
    are empty, the configuration is as before, and the allocator starts
    again at 10 (or fails when the ceiling is below 10). *)
Lemma current_highest_index_no_mappings d :
  apteryx_search_mappings d = [] → current_highest_index d = 0.
Proof. unfold current_highest_index. by intros ->. Qed.

Theorem pcp_mapping_deleteall_spec M d :
  let r := pcp_mapping_deleteall d in
  r.1 = true
  ∧ pcp_deinit d = r.2
  ∧ apteryx_search_mappings r.2 = []
  ∧ (∀ id, pcp_mapping_find r.2 id = None)
  ∧ pcp_mapping_getall r.2 = []
  ∧ (∀ k, r.2 !! (CONFIG_PATH, k) = d !! (CONFIG_PATH, k))
  ∧ next_mapping_id M r.2 = (if 10 >? M then -1 else 10).
Proof.
  intros r. subst r. simpl.
  pose proof (search_prune_mappings d) as Hnone.
  split; [done|]. split; [done|]. split; [done|].
  split; [apply find_prune_mappings|].
  split; [unfold pcp_mapping_getall; by rewrite Hnone|].
  split.
  - intros k. unfold apteryx_prune_mappings.
    destruct (d !! (CONFIG_PATH, k)) as [x|] eqn:E.
    + by apply map_lookup_filter_Some.
    + apply map_lookup_filter_None. by left.
  - unfold next_mapping_id, next_highest_id.
    by rewrite (current_highest_index_no_mappings _ Hnone).
Qed.

(** ** The allocator *)

(** X3. Whatever the store holds, [next_highest_id] answers -1 or a
    multiple of ten that does not exceed [MAXIMUM_MAPPING_ID]; its answer is
    an [int]. *)
Theorem next_highest_id_result M d :
  let r := next_highest_id M d in
  (r = -1 ∨ (r mod 10 = 0 ∧ r ≤ M))
  ∧ -2147483648 ≤ r ≤ C.INT_MAX.
Proof.
  intros r. split; [|apply (next_mapping_id_range M d)].
  subst r. unfold next_highest_id.
  set (m := C.int (current_highest_index d + 11)).
  destruct (Z.gtb_spec (C.int (m - C.rem m 10)) M) as [Hgt|Hle]; [by left|right].
  split; [|done].
  pose proof (int_range (current_highest_index d + 11)) as Hm. fold m in Hm.
  unfold C.rem, C.INT_MAX in *.
  pose proof (Z.quot_rem' m 10) as Hqr.
  assert (Hrem : -10 < Z.rem m 10 < 10 ∧ (0 ≤ m → 0 ≤ Z.rem m 10) ∧ (m ≤ 0 → Z.rem m 10 ≤ 0)).
  { pose proof (Z.rem_bound_abs m 10 ltac:(lia)).
    pose proof (Z.rem_nonneg m 10 ltac:(lia)).
    pose proof (Z.rem_nonpos m 10 ltac:(lia)). lia. }
  rewrite int_small by (unfold C.INT_MAX; lia).
  replace (m - Z.rem m 10) with (Z.quot m 10 * 10) by lia.
  apply Z.mod_mul. lia.
Qed.

(** In a store written by [pcp_mapping_add], [current_highest_index] is the
    greatest identifier, or 0 when that is negative or there is none. *)
Theorem current_highest_index_max d max :
  store_indexed d →
  greatest_id d max →
  current_highest_index d = Z.max 0 max.
Proof.
  intros Hidx [Hub Hmax]. unfold current_highest_index.
  pose proof (fold_highest (λ q, apteryx_get_int d (MAPPING_PATH q) INDEX_KEY)
                (apteryx_search_mappings d) 0) as (Hle & Hall & Hwit).
  simpl in *.
  set (r := fold_left _ _ _) in *.
  destruct Hmax as [Hin|[Hnil ->]].
  - pose proof (Hall _ Hin) as Hm. rewrite (Hidx _ Hin) in Hm.
    destruct Hwit as [Hr|(q & Hq & Hr)].
    + lia.
    + rewrite (Hidx _ Hq) in Hr. pose proof (Hub _ Hq). lia.
  - destruct Hwit as [Hr|(q & Hq & Hr)]; [lia|].
    rewrite Hnil in Hq. by apply elem_of_nil in Hq.
Qed.

Lemma scenario_greatest : greatest_id scenario_store 10.
Proof.
  split; rewrite scenario_store_search.
  - intros id ->%list_elem_of_singleton. lia.
  - left. by apply list_elem_of_singleton.
Qed.


(** ** The "index" leaves *)

Lemma store_indexed_delete d i : store_indexed d → store_indexed (pcp_mapping_delete d i).2.
Proof.
  intros Hd. unfold pcp_mapping_delete.
  destruct (pcp_mapping_find d i); [|done]. simpl.
  intros id [Hin Hne]%search_prune.
  rewrite <- (Hd id Hin) at 2. apply get_int_agree.
  apply lookup_prune_other. congruence.
Qed.

Lemma store_indexed_deleteall d : store_indexed (pcp_mapping_deleteall d).2.
Proof. intros id Hin. simpl in Hin. rewrite search_prune_mappings in Hin. by apply elem_of_nil in Hin. Qed.

Lemma store_indexed_refresh now d i L E :
  store_indexed d → store_indexed (pcp_mapping_refresh_lifetime now d i L E).2.
Proof.
  intros Hd.
  destruct (pcp_mapping_refresh_lifetime now d i L E).1 eqn:Hr.
  - destruct (refresh_success _ _ _ _ _ Hr) as (m & Hfind & ->).
    intros id Hin. apply search_refresh in Hin; [|by rewrite Hfind].
    rewrite <- (Hd id Hin) at 2. apply get_int_agree.
    apply lookup_refresh_other; discriminate.
  - by rewrite (refresh_fails_unchanged _ _ _ _ _ Hr).
Qed.

(** X4. Every operation of the mapping store keeps the "index" leaf of
    each mapping equal to the identifier in its path, [pcp_mapping_add] for
    an index that is an [int]. *)
Theorem store_indexed_preserved M now now' d :
  store_indexed d →
  (∀ i nonce iip iport eip eport l op pr,
     -2147483648 ≤ i ≤ C.INT_MAX →
     store_indexed (pcp_mapping_add M now now' d i nonce iip iport eip eport l op pr).2)
  ∧ (∀ i L E, store_indexed (pcp_mapping_refresh_lifetime now d i L E).2)
  ∧ (∀ i, store_indexed (pcp_mapping_delete d i).2)
  ∧ store_indexed (pcp_mapping_deleteall d).2.
Proof.
  intros Hd. split; [|split; [|split]].
  - intros. by apply store_indexed_add.
  - intros. by apply store_indexed_refresh.
  - intros. by apply store_indexed_delete.
  - apply store_indexed_deleteall.
Qed.

Lemma store_indexed_preserved_witness :
  store_indexed ∅ ∧ store_indexed scenario_store ∧ store_indexed scenario_refreshed.
Proof.
  split; [apply store_indexed_empty|].
  destruct (store_indexed_preserved C.INT_MAX 1000 1000 ∅ store_indexed_empty) as (Hadd & _).
  assert (Hs : store_indexed scenario_store) by (apply Hadd; unfold C.INT_MAX; lia).
  split; [exact Hs|].
  destruct (store_indexed_preserved C.INT_MAX 1010 1010 scenario_store Hs) as (_ & Hrefresh & _).
  apply Hrefresh.
Defined.

(** ** Allocation through [pcp_mapping_add] *)

(** X5. In a store written by [pcp_mapping_add] with non-negative
    identifiers, the greatest [max] of them at most [INT_MAX - 11] and the
    candidate within the ceiling, [pcp_mapping_add] with index -1 succeeds,
    creates the mapping [candidate max], which was not in use, and leaves a
    store of the same kind whose greatest identifier is [candidate max]. *)
Theorem pcp_mapping_add_auto M now now' d max nonce iip iport eip eport l op pr :
  store_indexed d →
  (∀ id, id ∈ apteryx_search_mappings d → 0 ≤ id) →
  greatest_id d max →
  max + 11 ≤ C.INT_MAX →
  candidate max ≤ M →
  let r := pcp_mapping_add M now now' d (-1) nonce iip iport eip eport l op pr in
  r.1 = true
  ∧ is_Some (pcp_mapping_find r.2 (candidate max))
  ∧ (candidate max ∉ apteryx_search_mappings d)
  ∧ (∀ id, id ∈ apteryx_search_mappings r.2
           ↔ (id = candidate max ∨ id ∈ apteryx_search_mappings d))
  ∧ store_indexed r.2
  ∧ greatest_id r.2 (candidate max).
Proof.
  intros Hidx Hnn Hmax Hfit Hceil r.
  destruct (next_highest_id_in_range M d max Hidx Hnn Hmax Hfit) as (Hnext & _ & Hlt).
  destruct (current_highest_index_greatest d max Hidx Hnn Hmax) as [_ H0].
  destruct (Z.gtb_spec (candidate max) M) as [?|_]; [lia|].
  assert (Hfresh : candidate max ∉ apteryx_search_mappings d).
  { intros Hin. destruct Hmax as [Hub _]. specialize (Hub _ Hin). lia. }
  assert (Hnone : pcp_mapping_find d (candidate max) = None).
  { destruct (pcp_mapping_find d (candidate max)) eqn:E; [|done].
    exfalso. apply Hfresh, find_in_search. rewrite E. eauto. }
  assert (Hr : r = (true, pcp_mapping_store d (candidate max) nonce iip iport eip eport
                            l op pr now now')).
  { subst r. unfold pcp_mapping_add, next_mapping_id. simpl. rewrite Hnext.
    destruct (Z.ltb_spec (candidate max) 0); [lia|]. simpl. by rewrite Hnone. }
  assert (Hsearch : ∀ id, id ∈ apteryx_search_mappings r.2
                          ↔ (id = candidate max ∨ id ∈ apteryx_search_mappings d)).
  { rewrite Hr. simpl. intros id. apply search_store. }
  split; [by rewrite Hr|].
  split; [rewrite Hr; simpl; rewrite find_store_same; by eauto|].
  split; [done|]. split; [done|].
  split.
  - subst r. apply store_indexed_add; [unfold C.INT_MAX; lia | done].
  - split.
    + intros id [->|Hin]%Hsearch; [lia|]. destruct Hmax as [Hub _].
      specialize (Hub _ Hin). lia.
    + left. apply Hsearch. by left.
Qed.

Lemma scenario_ids_nonneg :
  ∀ id, id ∈ apteryx_search_mappings scenario_store → 0 ≤ id.
Proof. rewrite scenario_store_search. intros id ->%list_elem_of_singleton. lia. Qed.

Lemma pcp_mapping_add_auto_witness :
  (add_at scenario_store (-1) 300).1 = true
  ∧ is_Some (pcp_mapping_find two_store (candidate 10))
  ∧ greatest_id two_store (candidate 10).
Proof.
  destruct (pcp_mapping_add_auto C.INT_MAX 1000 1000 scenario_store 10 (1, 2, 3) 100 4000 200 5000
              300 1 6 store_indexed_scenario scenario_ids_nonneg scenario_greatest)
    as (Hok & Hfind & _ & _ & _ & Hgreatest).
  - unfold C.INT_MAX. lia.
  - by vm_compute.
  - split; [exact Hok|]. split; [exact Hfind | exact Hgreatest].
Defined.

(** X6. Deleting a mapping other than the one with the greatest identifier
    does not change what the allocator answers next: a released identifier
    is not handed out again while a greater one is in use. *)
Theorem next_mapping_id_after_delete M d max i :
  store_indexed d →
  greatest_id d max →
  i ≠ max →
  next_mapping_id M (pcp_mapping_delete d i).2 = next_mapping_id M d.
Proof.
  intros Hidx Hmax Hi.
  unfold next_mapping_id, next_highest_id.
  rewrite (current_highest_index_max d max Hidx Hmax).
  rewrite (current_highest_index_max (pcp_mapping_delete d i).2 max); [done | |].
  - by apply store_indexed_delete.
  - unfold pcp_mapping_delete.
    destruct (pcp_mapping_find d i) as [m|] eqn:Hfind; [|done]. simpl.
    destruct Hmax as [Hub Hmax]. split.
    + intros id [Hin _]%search_prune. by apply Hub.
    + left. apply search_prune. split; [|done].
      destruct Hmax as [Hin|[Hnil _]]; [done|].
      assert (Hi' : i ∈ apteryx_search_mappings d)
        by (apply find_in_search; rewrite Hfind; eauto).
      rewrite Hnil in Hi'. by apply elem_of_nil in Hi'.
Qed.

Lemma two_store_search : apteryx_search_mappings two_store = [10; 20].
Proof. by vm_compute. Qed.

Lemma two_store_indexed : store_indexed two_store.
Proof. apply store_indexed_add; [unfold C.INT_MAX; lia | apply store_indexed_scenario]. Qed.

Lemma two_store_greatest : greatest_id two_store 20.
Proof.
  split; rewrite two_store_search.
  - intros id Hin. repeat (apply elem_of_cons in Hin as [->|Hin]; [lia|]).
    by apply elem_of_nil in Hin.
  - left. by repeat constructor.
Qed.

Lemma next_mapping_id_after_delete_witness :
  store_indexed two_store ∧ greatest_id two_store 20 ∧ 10 ≠ 20
  ∧ next_mapping_id C.INT_MAX (pcp_mapping_delete two_store 10).2
    = next_mapping_id C.INT_MAX two_store.
Proof.
  split; [apply two_store_indexed|]. split; [apply two_store_greatest|].
  split; [lia|].
  apply (next_mapping_id_after_delete C.INT_MAX two_store 20 10);
    [apply two_store_indexed | apply two_store_greatest | lia].
Defined.

(** The greatest identifier is handed out again once it is deleted. *)
Example next_mapping_id_reuses_greatest :
  next_mapping_id C.INT_MAX two_store = 30
  ∧ next_mapping_id C.INT_MAX (pcp_mapping_delete two_store 20).2 = 20.
Proof. split; by vm_compute. Qed.

(** ** What [pcp_mapping_add] stores *)

Lemma u16_int_small z : 0 ≤ z < 65536 → C.u_int16_t (C.int z) = z.
Proof.
  intros H. rewrite int_small by (unfold C.INT_MAX; lia).
  unfold C.u_int16_t. by rewrite Z.mod_small by lia.
Qed.

Lemma u8_int_small z : 0 ≤ z < 256 → C.u_int8_t (C.int z) = z.
Proof.
  intros H. rewrite int_small by (unfold C.INT_MAX; lia).
  unfold C.u_int8_t. by rewrite Z.mod_small by lia.
Qed.

(** X7. A mapping added under a free index other than -1, with arguments
    that fit their C types and a lease that ends before 2^32, is read back by
    [pcp_mapping_find] field for field: the start of life is the first
    reading of the clock, the end of life the second reading plus the
    lifetime. *)
Theorem pcp_mapping_add_find_roundtrip M now now' d i n1 n2 n3 iip iport eip eport l op pr :
  i ≠ -1 →
  pcp_mapping_find d i = None →
  0 ≤ n1 < 4294967296 → 0 ≤ n2 < 4294967296 → 0 ≤ n3 < 4294967296 →
  0 ≤ iport < 65536 → 0 ≤ eport < 65536 →
  0 ≤ l < 4294967296 → 0 ≤ op < 256 → 0 ≤ pr < 256 →
  0 ≤ now < 4294967296 → 0 ≤ now' → now' + l < 4294967296 →
  let r := pcp_mapping_add M now now' d i (n1, n2, n3) iip iport eip eport l op pr in
  r.1 = true
  ∧ pcp_mapping_find r.2 i
    = Some {| path := MAPPING_PATH i; index := i; mapping_nonce := (n1, n2, n3);
              internal_ip := iip; internal_port := iport;
              external_ip := eip; external_port := eport;
              lifetime := l; start_of_life := now; end_of_life := now' + l;
              opcode := op; protocol := pr |}.
Proof.
  intros Hi Hnone Hn1 Hn2 Hn3 Hiport Heport Hl Hop Hpr Hnow Hnow' Hend r.
  subst r. unfold pcp_mapping_add.
  destruct (Z.eqb_spec i (-1)) as [?|_]; [done|]. simpl. rewrite Hnone. simpl.
  split; [done|].
  rewrite find_store_same. simpl.
  rewrite !u32_small, !u16_int_small, !u8_int_small by lia. done.
Qed.

Lemma pcp_mapping_add_find_roundtrip_witness :
  (add_at_clock 1000 1001 ∅ 10 120).1 = true
  ∧ pcp_mapping_find ticked_store 10 = Some ticked_mapping.
Proof.
  apply (pcp_mapping_add_find_roundtrip C.INT_MAX 1000 1001 ∅ 10 1 2 3 100 4000 200 5000
           120 1 6);
    first [lia | reflexivity].
Defined.

(** ** The remaining lifetime of a new mapping *)

(** X8. Right after a successful [pcp_mapping_add] whose second reading of
    the clock is [now'], with a lease that ends before 2^32, the remaining
    lifetime of the new mapping at clock [t] is [now' + lifetime - t], and 0
    from the end of the lease on; the call does not fault. *)
Theorem remaining_lifetime_after_add M now now' d i nonce iip iport eip eport l op pr t :
  (pcp_mapping_add M now now' d i nonce iip iport eip eport l op pr).1 = true →
  0 ≤ now' → 0 ≤ l → now' + l < 4294967296 →
  let allocated := if i =? -1 then next_mapping_id M d else i in
  let d' := (pcp_mapping_add M now now' d i nonce iip iport eip eport l op pr).2 in
  pcp_mapping_remaining_lifetime_get t (pcp_mapping_find d' allocated)
  = C.Returns (Z.max 0 (now' + l - C.u_int32_t t)).
Proof.
  intros Hok Hnow Hl Hend allocated d'. subst d'. revert Hok.
  unfold pcp_mapping_add. fold allocated.
  destruct (_ && _); [done|].
  destruct (pcp_mapping_find d allocated); [done|]. cbn [fst snd]. intros _.
  rewrite find_store_same, remaining_lifetime_get_Some. cbn [end_of_life].
  rewrite (u32_small (now' + l)) by lia.
  pose proof (u32_range t).
  destruct (Z.leb_spec (now' + l) (C.u_int32_t t)); [f_equal; lia|].
  rewrite u32_small by lia. f_equal. lia.
Qed.

Lemma remaining_lifetime_after_add_witness :
  (add_at_clock 1000 1001 ∅ 10 120).1 = true
  ∧ pcp_mapping_remaining_lifetime_get 1100 (pcp_mapping_find ticked_store 10)
    = C.Returns (Z.max 0 (1001 + 120 - C.u_int32_t 1100)).
Proof.
  assert (Hok : (add_at_clock 1000 1001 ∅ 10 120).1 = true) by reflexivity.
  split; [exact Hok|].
  apply (remaining_lifetime_after_add C.INT_MAX 1000 1001 ∅ 10 (1, 2, 3) 100 4000 200 5000
           120 1 6 1100 Hok); lia.
Defined.

(** ** What a refresh leaves alone *)

Lemma current_highest_index_ext (d d' : db) :
  apteryx_search_mappings d' = apteryx_search_mappings d →
  (∀ id, apteryx_get_int d' (MAPPING_PATH id) INDEX_KEY
         = apteryx_get_int d (MAPPING_PATH id) INDEX_KEY) →
  current_highest_index d' = current_highest_index d.
Proof.
  intros Hs Hleaf. unfold current_highest_index. rewrite Hs. clear Hs.
  generalize 0. induction (apteryx_search_mappings d) as [|q l IH]; intros a; simpl; [done|].
  rewrite Hleaf. apply IH.
Qed.

(** X9. A successful [pcp_mapping_refresh_lifetime] replaces the lifetime
    and the end of life of its mapping and nothing else: the other fields of
    the mapping, every other mapping, the identifiers in use, the
    configuration and the allocator's next answer are as before. *)
Theorem pcp_mapping_refresh_lifetime_frame M now d i L E :
  (pcp_mapping_refresh_lifetime now d i L E).1 = true →
  let d' := (pcp_mapping_refresh_lifetime now d i L E).2 in
  (∃ m, pcp_mapping_find d i = Some m
        ∧ pcp_mapping_find d' i = Some (with_lease m (C.u_int32_t L) (C.u_int32_t E)))
  ∧ (∀ j, j ≠ i → pcp_mapping_find d' j = pcp_mapping_find d j)
  ∧ apteryx_search_mappings d' = apteryx_search_mappings d
  ∧ (∀ k, d' !! (CONFIG_PATH, k) = d !! (CONFIG_PATH, k))
  ∧ next_mapping_id M d' = next_mapping_id M d.
Proof.
  intros Hok d'. subst d'.
  destruct (refresh_success _ _ _ _ _ Hok) as (m & Hfind & ->).
  assert (Hs : apteryx_search_mappings
                 (apteryx_set_int (apteryx_set_int d (MAPPING_PATH i) LIFETIME_KEY L)
                    (MAPPING_PATH i) END_OF_LIFE_KEY E)
               = apteryx_search_mappings d).
  { apply search_ext. intros id. apply search_refresh. rewrite Hfind. eauto. }
  split; [exists m; split; [done | by apply find_refresh_same]|].
  split; [intros j Hj; by apply find_refresh_other|].
  split; [done|].
  split; [intros k; apply lookup_refresh_other; discriminate|].
  unfold next_mapping_id, next_highest_id.
  rewrite (current_highest_index_ext d _ Hs); [done|].
  intros id. apply get_int_agree. apply lookup_refresh_other; discriminate.
Qed.

Lemma pcp_mapping_refresh_lifetime_frame_witness :
  (pcp_mapping_refresh_lifetime 1010 scenario_store 10 60 1070).1 = true
  ∧ apteryx_search_mappings scenario_refreshed = apteryx_search_mappings scenario_store
  ∧ next_mapping_id C.INT_MAX scenario_refreshed = next_mapping_id C.INT_MAX scenario_store.
Proof.
  assert (Hok : (pcp_mapping_refresh_lifetime 1010 scenario_store 10 60 1070).1 = true)
    by reflexivity.
  destruct (pcp_mapping_refresh_lifetime_frame C.INT_MAX 1010 scenario_store 10 60 1070 Hok)
    as (_ & _ & Hs & _ & Hnext).
  split; [exact Hok|]. split; [exact Hs | exact Hnext].
Defined.

(** ** What the listing holds *)

Lemma getall_fold_perm d (ids : list Z) (acc : list pcp_mapping) :
  fold_left
    (λ mappings id,
       match pcp_mapping_find d id with
       | Some mapping => GLib.g_list_insert_sorted mappings mapping mapping_index_cmp
       | None => mappings
       end) ids acc
  ≡ₚ acc ++ omap (pcp_mapping_find d) ids.
Proof.
  revert acc. induction ids as [|id ids IH]; intros acc; simpl.
  - by rewrite app_nil_r.
  - rewrite IH. destruct (pcp_mapping_find d id) as [m|]; [|done].
    rewrite insert_sorted_perm. by rewrite <- Permutation_middle.
Qed.

Lemma getall_perm d :
  pcp_mapping_getall d ≡ₚ omap (pcp_mapping_find d) (apteryx_search_mappings d).
Proof. unfold pcp_mapping_getall. by rewrite getall_fold_perm. Qed.

Lemma getall_member d m :
  m ∈ pcp_mapping_getall d ↔ pcp_mapping_find d (index m) = Some m.
Proof.
  rewrite getall_perm, list_elem_of_omap. split.
  - intros (id & _ & Hfind). by rewrite (find_index _ _ _ Hfind).
  - intros Hfind. exists (index m). split; [|done].
    apply find_in_search. rewrite Hfind. eauto.
Qed.

Lemma found_indices_sublist d (ids : list Z) :
  map index (omap (pcp_mapping_find d) ids) `sublist_of` ids.
Proof.
  induction ids as [|id ids IH]; simpl; [done|].
  destruct (pcp_mapping_find d id) as [m|] eqn:Hfind; simpl.
  - rewrite (find_index _ _ _ Hfind). by apply sublist_skip.
  - by apply sublist_cons.
Qed.

(** X10. [pcp_mapping_getall] lists exactly the mappings [pcp_mapping_find]
    finds, no index twice; after a successful [pcp_mapping_add] it lists the
    new mapping and the former ones, after a successful [pcp_mapping_delete]
    the former ones but the deleted. *)
Theorem pcp_mapping_getall_tracks_store M now now' d :
  (∀ m, m ∈ pcp_mapping_getall d ↔ pcp_mapping_find d (index m) = Some m)
  ∧ NoDup (map index (pcp_mapping_getall d))
  ∧ (∀ i nonce iip iport eip eport l op pr,
       let allocated := if i =? -1 then next_mapping_id M d else i in
       let r := pcp_mapping_add M now now' d i nonce iip iport eip eport l op pr in
       r.1 = true →
       ∀ m, m ∈ pcp_mapping_getall r.2
            ↔ (m ∈ pcp_mapping_getall d ∨ pcp_mapping_find r.2 allocated = Some m))
  ∧ (∀ i, (pcp_mapping_delete d i).1 = true →
          ∀ m, m ∈ pcp_mapping_getall (pcp_mapping_delete d i).2
               ↔ (m ∈ pcp_mapping_getall d ∧ index m ≠ i)).
Proof.
  split; [apply getall_member|]. split; [|split].
  - rewrite getall_perm. eapply sublist_NoDup; [apply search_NoDup|].
    apply found_indices_sublist.
  - intros i nonce iip iport eip eport l op pr allocated r Hok m.
    subst r. revert Hok. unfold pcp_mapping_add. fold allocated.
    destruct (_ && _); [done|].
    destruct (pcp_mapping_find d allocated) eqn:Hnone; [done|]. simpl. intros _.
    rewrite !getall_member.
    destruct (decide (index m = allocated)) as [Heq|Hne].
    + rewrite Heq. split; [by right|]. intros [Hold|Hnew]; [|done].
      congruence.
    + rewrite find_store_other by done. split; [by left|].
      intros [Hold|Hnew]; [done|].
      exfalso. apply Hne. by apply (find_index _ _ _ Hnew).
  - intros i Hok m. revert Hok. unfold pcp_mapping_delete.
    destruct (pcp_mapping_find d i) eqn:Hfind; [|done]. simpl. intros _.
    rewrite !getall_member.
    destruct (decide (index m = i)) as [Heq|Hne].
    + rewrite Heq, find_prune_same. split; [done | by intros [_ ?]].
    + rewrite find_prune_other by done. split; [done | by intros [? _]].
Qed.

(** ** The configuration in the database *)

Ltac config_unfold :=
  unfold pcp_initialized_get, pcp_enabled_get, map_support_get, peer_support_get,
    third_party_support_get, proxy_support_get, upnp_igd_pcp_iwf_support_get,
    min_mapping_lifetime_get, max_mapping_lifetime_get, prefer_failure_req_rate_limit_get,
    startup_epoch_time_get,
    config_set_default, pcp_initialized_set, pcp_enabled_set,
    map_support_set, peer_support_set, third_party_support_set, proxy_support_set,
    upnp_igd_pcp_iwf_support_set, min_mapping_lifetime_set, max_mapping_lifetime_set,
    prefer_failure_req_rate_limit_set, startup_epoch_time_set;
  cbv zeta; simpl snd.

Lemma int_of_bool_is_1 b : (C.int (C.of_bool b) =? 1) = b.
Proof. by destruct b. Qed.

(** X11. Each configuration getter reads back what its setter wrote: the
    flags as they are, the numbers as [u_int32_t] values (a number that fits
    [u_int32_t] unchanged, though it passes through an [int32_t]). *)
Theorem config_set_get d :
  (∀ b, pcp_initialized_get (pcp_initialized_set d b) = b)
  ∧ (∀ b, pcp_enabled_get (pcp_enabled_set d b) = b)
  ∧ (∀ b, map_support_get (map_support_set d b) = b)
  ∧ (∀ b, peer_support_get (peer_support_set d b) = b)
  ∧ (∀ b, third_party_support_get (third_party_support_set d b) = b)
  ∧ (∀ b, proxy_support_get (proxy_support_set d b) = b)
  ∧ (∀ b, upnp_igd_pcp_iwf_support_get (upnp_igd_pcp_iwf_support_set d b) = b)
  ∧ (∀ v, min_mapping_lifetime_get (min_mapping_lifetime_set d v) = C.u_int32_t v)
  ∧ (∀ v, max_mapping_lifetime_get (max_mapping_lifetime_set d v) = C.u_int32_t v)
  ∧ (∀ v, prefer_failure_req_rate_limit_get (prefer_failure_req_rate_limit_set d v)
          = C.u_int32_t v)
  ∧ (∀ v, startup_epoch_time_get (startup_epoch_time_set d v) = C.u_int32_t v)
  ∧ (∀ v, 0 ≤ v < 4294967296 → C.u_int32_t v = v).
Proof.
  repeat split; try (intros b; config_unfold; db_unfold; db_lookup; apply int_of_bool_is_1).
  all: try (intros v; config_unfold; db_unfold; db_lookup; apply u32_int).
  all: intros v Hv; by apply u32_small.
Qed.

(** X12. [config_set_default] returns true and leaves the eight defaults
    in the database; the enabled flag, the initialized flag, the startup
    time and every mapping are as before. *)
Theorem config_set_default_spec defaults d :
  let r := config_set_default defaults d in
  r.1 = true
  ∧ map_support_get r.2 = DEFAULT_MAP_SUPPORT defaults
  ∧ peer_support_get r.2 = DEFAULT_PEER_SUPPORT defaults
  ∧ third_party_support_get r.2 = DEFAULT_THIRD_PARTY_SUPPORT defaults
  ∧ proxy_support_get r.2 = DEFAULT_PROXY_SUPPORT defaults
  ∧ upnp_igd_pcp_iwf_support_get r.2 = DEFAULT_UPNP_IGD_PCP_IWF_SUPPORT defaults
  ∧ min_mapping_lifetime_get r.2 = C.u_int32_t (DEFAULT_MIN_MAPPING_LIFETIME defaults)
  ∧ max_mapping_lifetime_get r.2 = C.u_int32_t (DEFAULT_MAX_MAPPING_LIFETIME defaults)
  ∧ prefer_failure_req_rate_limit_get r.2
    = C.u_int32_t (DEFAULT_PREFER_FAILURE_REQ_RATE_LIMIT defaults)
  ∧ pcp_enabled_get r.2 = pcp_enabled_get d
  ∧ pcp_initialized_get r.2 = pcp_initialized_get d
  ∧ startup_epoch_time_get r.2 = startup_epoch_time_get d
  ∧ (∀ id k, r.2 !! (MAPPING_PATH id, k) = d !! (MAPPING_PATH id, k)).
Proof.
  intros r. subst r.
  repeat split; config_unfold; db_unfold; db_lookup;
    first [ apply int_of_bool_is_1 | apply u32_int | reflexivity | idtac ].
  intros id k. by rewrite !lookup_insert_ne by discriminate.
Qed.

(** ** Loading the configuration, continued *)

(** X13. On a database that is not marked initialized [pcp_load_config]
    returns true without a callback, whatever table is registered, and
    leaves the database marked initialized, enabled and holding the eight
    defaults; the startup time and the mappings are as before. *)
Theorem pcp_load_config_first_run (W : Type) defaults d
    (saved_cbs : option (pcp_callbacks W)) (w : W) :
  pcp_initialized_get d = false →
  ∃ d', pcp_load_config W defaults d saved_cbs w = C.Returns (true, d', w)
        ∧ pcp_initialized_get d' = true
        ∧ pcp_enabled_get d' = true
        ∧ map_support_get d' = DEFAULT_MAP_SUPPORT defaults
        ∧ peer_support_get d' = DEFAULT_PEER_SUPPORT defaults
        ∧ third_party_support_get d' = DEFAULT_THIRD_PARTY_SUPPORT defaults
        ∧ proxy_support_get d' = DEFAULT_PROXY_SUPPORT defaults
        ∧ upnp_igd_pcp_iwf_support_get d' = DEFAULT_UPNP_IGD_PCP_IWF_SUPPORT defaults
        ∧ min_mapping_lifetime_get d' = C.u_int32_t (DEFAULT_MIN_MAPPING_LIFETIME defaults)
        ∧ max_mapping_lifetime_get d' = C.u_int32_t (DEFAULT_MAX_MAPPING_LIFETIME defaults)
        ∧ prefer_failure_req_rate_limit_get d'
          = C.u_int32_t (DEFAULT_PREFER_FAILURE_REQ_RATE_LIMIT defaults)
        ∧ startup_epoch_time_get d' = startup_epoch_time_get d
        ∧ (∀ id k, d' !! (MAPPING_PATH id, k) = d !! (MAPPING_PATH id, k)).
Proof.
  intros Hinit. unfold pcp_load_config. rewrite Hinit.
  eexists. split; [reflexivity|].
  repeat split; config_unfold; db_unfold; db_lookup;
    first [ apply int_of_bool_is_1 | apply u32_int | reflexivity | idtac ].
  intros id k. by rewrite !lookup_insert_ne by discriminate.
Qed.

Lemma pcp_load_config_first_run_witness :
  pcp_initialized_get ∅ = false
  ∧ ∃ d', pcp_load_config (list Z) sample_defaults ∅ None [] = C.Returns (true, d', [])
          ∧ pcp_initialized_get d' = true
          ∧ third_party_support_get d' = false
          ∧ prefer_failure_req_rate_limit_get d' = 256.
Proof.
  assert (Hnew : pcp_initialized_get ∅ = false) by reflexivity.
  split; [exact Hnew|].
  destruct (pcp_load_config_first_run (list Z) sample_defaults ∅ None [] Hnew)
    as (d' & Hload & Hinit & _ & _ & _ & Htp & _ & _ & _ & _ & Hpf & _).
  exists d'. split; [exact Hload|]. split; [exact Hinit|]. split; [exact Htp | exact Hpf].
Defined.

(** Each callback of the daemon leaves the configuration with its field
    set, whether or not it had to write. *)
Ltac daemon_callback :=
  intros; cbv beta delta [Pcpd.pcp_enabled Pcpd.map_support Pcpd.peer_support
    Pcpd.third_party_support Pcpd.proxy_support Pcpd.upnp_igd_pcp_iwf_support
    Pcpd.min_mapping_lifetime Pcpd.max_mapping_lifetime Pcpd.prefer_failure_req_rate_limit];
  case_bool_decide; simpl in *; by subst.

Lemma daemon_pcp_enabled v o e m p t x u mn mx pf :
  Pcpd.pcp_enabled v (Pcpd.Build_pcp_config o e m p t x u mn mx pf)
  = Pcpd.Build_pcp_config o v m p t x u mn mx pf.
Proof. daemon_callback. Qed.

Lemma daemon_map_support v o e m p t x u mn mx pf :
  Pcpd.map_support v (Pcpd.Build_pcp_config o e m p t x u mn mx pf)
  = Pcpd.Build_pcp_config o e v p t x u mn mx pf.
Proof. daemon_callback. Qed.

Lemma daemon_peer_support v o e m p t x u mn mx pf :
  Pcpd.peer_support v (Pcpd.Build_pcp_config o e m p t x u mn mx pf)
  = Pcpd.Build_pcp_config o e m v t x u mn mx pf.
Proof. daemon_callback. Qed.

Lemma daemon_third_party_support v o e m p t x u mn mx pf :
  Pcpd.third_party_support v (Pcpd.Build_pcp_config o e m p t x u mn mx pf)
  = Pcpd.Build_pcp_config o e m p v x u mn mx pf.
Proof. daemon_callback. Qed.

Lemma daemon_proxy_support v o e m p t x u mn mx pf :
  Pcpd.proxy_support v (Pcpd.Build_pcp_config o e m p t x u mn mx pf)
  = Pcpd.Build_pcp_config o e m p t v u mn mx pf.
Proof. daemon_callback. Qed.

Lemma daemon_upnp_igd_pcp_iwf_support v o e m p t x u mn mx pf :
  Pcpd.upnp_igd_pcp_iwf_support v (Pcpd.Build_pcp_config o e m p t x u mn mx pf)
  = Pcpd.Build_pcp_config o e m p t x v mn mx pf.
Proof. daemon_callback. Qed.

Lemma daemon_min_mapping_lifetime v o e m p t x u mn mx pf :
  Pcpd.min_mapping_lifetime v (Pcpd.Build_pcp_config o e m p t x u mn mx pf)
  = Pcpd.Build_pcp_config o e m p t x u v mx pf.
Proof. daemon_callback. Qed.

Lemma daemon_max_mapping_lifetime v o e m p t x u mn mx pf :
  Pcpd.max_mapping_lifetime v (Pcpd.Build_pcp_config o e m p t x u mn mx pf)
  = Pcpd.Build_pcp_config o e m p t x u mn v pf.
Proof. daemon_callback. Qed.

Lemma daemon_prefer_failure_req_rate_limit v o e m p t x u mn mx pf :
  Pcpd.prefer_failure_req_rate_limit v (Pcpd.Build_pcp_config o e m p t x u mn mx pf)
  = Pcpd.Build_pcp_config o e m p t x u mn mx v.
Proof. daemon_callback. Qed.

(** X14. On an initialized database [pcp_load_config] with the daemon's
    callbacks returns true, leaves the database as it was and leaves in the
    daemon's configuration the nine values the database holds; the output
    path is as before. *)
Theorem pcp_load_config_daemon defaults d (config : Pcpd.pcp_config) :
  pcp_initialized_get d = true →
  pcp_load_config Pcpd.pcp_config defaults d (Some Pcpd.callbacks) config
  = C.Returns (true, d, config_of_db (Pcpd.config_output_path config) d).
Proof.
  intros Hinit. unfold pcp_load_config. rewrite Hinit.
  destruct config as [o e m p t x u mn mx pf].
  unfold call, Pcpd.callbacks. simpl.
  by rewrite daemon_pcp_enabled, daemon_map_support, daemon_peer_support,
    daemon_third_party_support, daemon_proxy_support, daemon_upnp_igd_pcp_iwf_support,
    daemon_min_mapping_lifetime, daemon_max_mapping_lifetime,
    daemon_prefer_failure_req_rate_limit.
Qed.

Lemma initialized_db_get : pcp_initialized_get initialized_db = true.
Proof. reflexivity. Qed.

Lemma pcp_load_config_daemon_witness :
  pcp_initialized_get initialized_db = true
  ∧ pcp_load_config Pcpd.pcp_config sample_defaults initialized_db (Some Pcpd.callbacks)
      blank_config
    = C.Returns (true, initialized_db, config_of_db None initialized_db).
Proof.
  split; [apply initialized_db_get|].
  apply (pcp_load_config_daemon sample_defaults initialized_db blank_config initialized_db_get).
Defined.

(** After the first two loads the daemon holds the defaults. *)
Example config_of_initialized_db :
  config_of_db None initialized_db
  = {| Pcpd.config_output_path := None;
       Pcpd.config_pcp_enabled := true;
       Pcpd.config_map_support := true;
       Pcpd.config_peer_support := true;
       Pcpd.config_third_party_support := false;
       Pcpd.config_proxy_support := false;
       Pcpd.config_upnp_igd_pcp_iwf_support := false;
       Pcpd.config_min_mapping_lifetime := 120;
       Pcpd.config_max_mapping_lifetime := 86400;
       Pcpd.config_prefer_failure_req_rate_limit := 256 |}.
Proof. reflexivity. Qed.

(** ** Notified changes of the configuration *)

Lemma config_changed_sync key v d o :
  key ∈ daemon_config_keys →
  pcp_config_changed Pcpd.pcp_config (apteryx_set_int d CONFIG_PATH key v)
    (Some Pcpd.callbacks) (Some (CONFIG_PATH, Some key)) (config_of_db o d)
  = C.Returns (true, config_of_db o (apteryx_set_int d CONFIG_PATH key v)).
Proof.
  intros Hin. unfold daemon_config_keys in Hin.
  repeat (apply elem_of_cons in Hin as [->|Hin]); [..|by apply elem_of_nil in Hin].
  all: unfold pcp_config_changed; simpl String.eqb; cbv iota.
  all: unfold call_checked, call, Pcpd.callbacks; simpl.
  all: do 2 f_equal; unfold config_of_db.
  all: first [ rewrite daemon_pcp_enabled | rewrite daemon_map_support
             | rewrite daemon_peer_support | rewrite daemon_third_party_support
             | rewrite daemon_proxy_support | rewrite daemon_upnp_igd_pcp_iwf_support
             | rewrite daemon_min_mapping_lifetime | rewrite daemon_max_mapping_lifetime
             | rewrite daemon_prefer_failure_req_rate_limit ].
  all: config_unfold; db_unfold; db_lookup; reflexivity.
Qed.

(** X15. When the daemon's configuration holds what the database holds,
    one of the nine values is set in the database and the change is
    notified through [pcp_config_changed], the daemon's configuration holds
    what the database holds again. *)
Theorem pcp_config_changed_daemon_in_step d o :
  let notified d' key :=
    pcp_config_changed Pcpd.pcp_config d' (Some Pcpd.callbacks)
      (Some (CONFIG_PATH, Some key)) (config_of_db o d) in
  (∀ b, notified (pcp_enabled_set d b) PCP_ENABLED_KEY
        = C.Returns (true, config_of_db o (pcp_enabled_set d b)))
  ∧ (∀ b, notified (map_support_set d b) MAP_SUPPORT_KEY
          = C.Returns (true, config_of_db o (map_support_set d b)))
  ∧ (∀ b, notified (peer_support_set d b) PEER_SUPPORT_KEY
          = C.Returns (true, config_of_db o (peer_support_set d b)))
  ∧ (∀ b, notified (third_party_support_set d b) THIRD_PARTY_SUPPORT_KEY
          = C.Returns (true, config_of_db o (third_party_support_set d b)))
  ∧ (∀ b, notified (proxy_support_set d b) PROXY_SUPPORT_KEY
          = C.Returns (true, config_of_db o (proxy_support_set d b)))
  ∧ (∀ b, notified (upnp_igd_pcp_iwf_support_set d b) UPNP_IGD_PCP_IWF_SUPPORT_KEY
          = C.Returns (true, config_of_db o (upnp_igd_pcp_iwf_support_set d b)))
  ∧ (∀ v, notified (min_mapping_lifetime_set d v) MIN_MAPPING_LIFETIME_KEY
          = C.Returns (true, config_of_db o (min_mapping_lifetime_set d v)))
  ∧ (∀ v, notified (max_mapping_lifetime_set d v) MAX_MAPPING_LIFETIME_KEY
          = C.Returns (true, config_of_db o (max_mapping_lifetime_set d v)))
  ∧ (∀ v, notified (prefer_failure_req_rate_limit_set d v) PREFER_FAILURE_REQ_RATE_LIMIT_KEY
          = C.Returns (true, config_of_db o (prefer_failure_req_rate_limit_set d v))).
Proof.
  intros notified. subst notified. cbv beta.
  repeat split; intros; apply config_changed_sync; unfold daemon_config_keys;
    by repeat constructor.
Qed.

Ltac config_key_member :=
  eexists; split; [|reflexivity]; unfold config_keys; by repeat constructor.

(** X16. [pcp_config_changed] never faults; it returns true exactly for a
    path that is one of the eleven known keys under the configuration
    directory, false for every other path (a null one, a mapping's, an
    unknown key); without a registered table it calls nothing. *)
Theorem pcp_config_changed_result (W : Type) d (saved_cbs : option (pcp_callbacks W))
    path (w : W) :
  ∃ b w', pcp_config_changed W d saved_cbs path w = C.Returns (b, w')
          ∧ (b = true ↔ ∃ key, key ∈ config_keys ∧ path = Some (CONFIG_PATH, Some key))
          ∧ (saved_cbs = None → w' = w).
Proof.
  unfold pcp_config_changed.
  destruct path as [[[|id] [key|]]|];
    try (exists false, w; split; [done|]; split; [|done];
         split; [done | by intros (key' & _ & [=])]).
  repeat (match goal with
          | |- context [String.eqb key ?K] => destruct (String.eqb_spec key K) as [->|?]
          end;
          [ unfold call_checked, call; destruct saved_cbs; simpl;
            eexists _, _; (split; [reflexivity|]);
            (split; [split; [intros _; config_key_member | done] | done])
          | ]).
  simpl. exists false, w. split; [done|]. split; [|done]. split; [done|].
  intros (key' & Hin & [= ->]). unfold config_keys in Hin.
  repeat (apply elem_of_cons in Hin as [->|Hin]; [done|]). by apply elem_of_nil in Hin.
Qed.

(** ** Notified changes of the mappings *)

(** X17. With both mapping callbacks registered, the notification of a
    path under a mapping just deleted calls [delete_pcp_mapping] with its
    index, and under a mapping just added calls [new_pcp_mapping] with the
    mapping as stored; without a table nothing is called, and a path that
    is not a mapping's is refused. *)
Theorem pcp_mapping_changed_reports (W : Type) M now now' d (cbs : pcp_callbacks W)
    (f : pcp_mapping → W → W) (g : Z → W → W) (w : W) :
  new_pcp_mapping W cbs = Some f →
  delete_pcp_mapping W cbs = Some g →
  (∀ i k, (pcp_mapping_delete d i).1 = true →
          pcp_mapping_changed W (pcp_mapping_delete d i).2 (Some cbs)
            (Some (MAPPING_PATH i, k)) w
          = C.Returns (true, g i w))
  ∧ (∀ i nonce iip iport eip eport l op pr k,
       let allocated := if i =? -1 then next_mapping_id M d else i in
       let r := pcp_mapping_add M now now' d i nonce iip iport eip eport l op pr in
       r.1 = true →
       ∃ m, pcp_mapping_find r.2 allocated = Some m
            ∧ pcp_mapping_changed W r.2 (Some cbs) (Some (MAPPING_PATH allocated, k)) w
              = C.Returns (true, f m w))
  ∧ (∀ id k, pcp_mapping_changed W d None (Some (MAPPING_PATH id, k)) w
             = C.Returns (true, w))
  ∧ (∀ k, pcp_mapping_changed W d (Some cbs) (Some (CONFIG_PATH, k)) w
          = C.Returns (false, w))
  ∧ pcp_mapping_changed W d (Some cbs) None w = C.Returns (false, w).
Proof.
  intros Hnew Hdel. split; [|split; [|split; [|split]]].
  - intros i k Hok. revert Hok. unfold pcp_mapping_delete.
    destruct (pcp_mapping_find d i); [|done]. cbn [fst snd]. intros _.
    unfold pcp_mapping_changed. rewrite find_prune_same.
    cbv [call_checked call mbind outcome_bind C.bind C.deref]. by rewrite Hdel.
  - intros i nonce iip iport eip eport l op pr k allocated r Hok.
    subst r. revert Hok. unfold pcp_mapping_add. fold allocated.
    destruct (_ && _); [done|].
    destruct (pcp_mapping_find d allocated); [done|]. cbn [fst snd]. intros _.
    eexists. split; [apply find_store_same|].
    unfold pcp_mapping_changed. rewrite find_store_same.
    cbv [call_checked call mbind outcome_bind C.bind C.deref]. by rewrite Hnew.
  - intros id k. unfold pcp_mapping_changed. by destruct (pcp_mapping_find d id).
  - done.
  - done.
Qed.

Lemma pcp_mapping_changed_reports_witness :
  pcp_mapping_changed (list Z) (pcp_mapping_delete scenario_store 10).2
    (Some logging_callbacks) (Some (MAPPING_PATH 10, Some LIFETIME_KEY)) []
  = C.Returns (true, [-11]).
Proof.
  destruct (pcp_mapping_changed_reports (list Z) C.INT_MAX 1000 1000 scenario_store
              logging_callbacks (λ m w, index m :: w) (λ id w, (- id - 1) :: w) []
              eq_refl eq_refl) as (Hdel & _).
  apply Hdel. by vm_compute.
Defined.

(** ** The uptime *)

(** X18. The four numbers of [get_uptime_string] add up to the uptime,
    the clock minus the recorded start as a [u_int32_t]: days times 86400
    plus hours times 3600 plus minutes times 60 plus seconds, with hours
    below 24, minutes and seconds below 60 and at most 49710 days. *)
Theorem uptime_fields_spec now d :
  let '(days, hours, minutes, seconds) := uptime_fields now d in
  days * 86400 + hours * 3600 + minutes * 60 + seconds
  = C.u_int32_t (now - startup_epoch_time_get d)
  ∧ 0 ≤ days ≤ 49710
  ∧ 0 ≤ hours < 24
  ∧ 0 ≤ minutes < 60
  ∧ 0 ≤ seconds < 60.
Proof.
  unfold uptime_fields.
  pose proof (u32_range (now - startup_epoch_time_get d)) as Hu.
  set (u := C.u_int32_t (now - startup_epoch_time_get d)) in *.
  pose proof (Z.div_mod u 86400 ltac:(lia)) as Hd.
  pose proof (Z.mod_pos_bound u 86400 ltac:(lia)) as Hdr.
  assert (Hdays : 0 ≤ u / 86400 ≤ 49710).
  { split; [apply Z.div_pos; lia|].
    assert (u / 86400 < 49711) by (apply Z.div_lt_upper_bound; lia). lia. }
  rewrite (u32_small (u / 86400 * 86400)) by lia.
  rewrite (u32_small (u - u / 86400 * 86400)) by lia.
  set (u1 := u - u / 86400 * 86400) in *.
  pose proof (Z.div_mod u1 3600 ltac:(lia)) as Hh.
  pose proof (Z.mod_pos_bound u1 3600 ltac:(lia)) as Hhr.
  assert (Hhours : 0 ≤ u1 / 3600 < 24).
  { split; [apply Z.div_pos; lia|]. apply Z.div_lt_upper_bound; lia. }
  rewrite (u32_small (u1 / 3600 * 3600)) by lia.
  rewrite (u32_small (u1 - u1 / 3600 * 3600)) by lia.
  set (u2 := u1 - u1 / 3600 * 3600) in *.
  pose proof (Z.div_mod u2 60 ltac:(lia)) as Hm.
  pose proof (Z.mod_pos_bound u2 60 ltac:(lia)) as Hmr.
  assert (Hminutes : 0 ≤ u2 / 60 < 60).
  { split; [apply Z.div_pos; lia|]. apply Z.div_lt_upper_bound; lia. }
  rewrite (u32_small (u2 / 60 * 60)) by lia.
  rewrite (u32_small (u2 - u2 / 60 * 60)) by lia.
  lia.
Qed.

(** One day, two hours, three minutes and four seconds after the start;
    and a clock one second behind the recorded start. *)
Example get_uptime_string_examples :
  get_uptime_string 1093784 (startup_epoch_time_set ∅ 1000000) = "1:02:03:04"%string
  ∧ get_uptime_string 999999 (startup_epoch_time_set ∅ 1000000) = "49710:06:28:15"%string.
Proof. split; by vm_compute. Qed.

(** ** The R bit in a byte *)

Lemma R_REQUEST_R_RESPONSE opcode : R_REQUEST (R_RESPONSE opcode) = R_REQUEST opcode.
Proof.
  apply Z.bits_inj'. intros i _.
  rewrite !testbit_R_REQUEST, testbit_R_RESPONSE. by destruct (i =? 7).
Qed.

Lemma R_RESPONSE_R_REQUEST opcode : R_RESPONSE (R_REQUEST opcode) = R_RESPONSE opcode.
Proof.
  apply Z.bits_inj'. intros i _.
  rewrite !testbit_R_RESPONSE, testbit_R_REQUEST. by destruct (i =? 7).
Qed.

(** X19. For an opcode that is a byte, [R_REQUEST] is the opcode modulo
    128 and [R_RESPONSE] that plus 128, both bytes again; either macro
    undoes the other's R bit. *)
Theorem R_bit_bytes opcode :
  0 ≤ opcode < 256 →
  R_REQUEST opcode = opcode mod 128
  ∧ R_RESPONSE opcode = opcode mod 128 + 128
  ∧ R_REQUEST (R_RESPONSE opcode) = R_REQUEST opcode
  ∧ R_RESPONSE (R_REQUEST opcode) = R_RESPONSE opcode
  ∧ C.u_int8_t (R_REQUEST opcode) = R_REQUEST opcode
  ∧ C.u_int8_t (R_RESPONSE opcode) = R_RESPONSE opcode.
Proof.
  intros Hop.
  assert (Hall : Forall (λ o, R_REQUEST o = o mod 128 ∧ R_RESPONSE o = o mod 128 + 128)
                   (seqZ 0 256)).
  { apply (bool_decide_unpack _). by vm_compute. }
  rewrite Forall_forall in Hall.
  destruct (Hall opcode) as [Hreq Hresp]; [apply elem_of_seqZ; lia|].
  pose proof (Z.mod_pos_bound opcode 128 ltac:(lia)).
  split; [done|]. split; [done|].
  split; [apply R_REQUEST_R_RESPONSE|]. split; [apply R_RESPONSE_R_REQUEST|].
  unfold C.u_int8_t. rewrite Hreq, Hresp. split; apply Z.mod_small; lia.
Qed.

Lemma R_bit_bytes_witness :
  0 ≤ MAP_OPCODE < 256
  ∧ R_REQUEST (R_RESPONSE MAP_OPCODE) = R_REQUEST MAP_OPCODE
  ∧ C.u_int8_t (R_RESPONSE MAP_OPCODE) = R_RESPONSE MAP_OPCODE.
Proof.
  assert (H : 0 ≤ MAP_OPCODE < 256) by (unfold MAP_OPCODE; lia).
  destruct (R_bit_bytes MAP_OPCODE H) as (_ & _ & Hrr & _ & _ & Hbyte).
  split; [exact H|]. split; [exact Hrr | exact Hbyte].
Defined.

(** ** The loop of the daemon *)

(** X20. One turn of the daemon's loop answers a packet exactly when it is
    a MAP request and [config.map_support] is set, with the response of
    [process_map_request]; no other field of the configuration matters.
    Once [map_support] is set to [b] in the database and the change is
    notified, a MAP request is answered exactly when [b] is true. *)
Theorem main_loop_body_answers
    (get_packet_type : list Z → packet_type)
    (deserialize_map_request : list Z → map_request)
    (serialize_map_response : map_response → list Z)
    (in6_addr_at : string → Z) (epoch_time : Z) d o (pkt_buf : list Z) :
  let body :=
    Pcpd.main_loop_body get_packet_type deserialize_map_request serialize_map_response
      in6_addr_at epoch_time in
  let answer :=
    Pcpd.process_map_request deserialize_map_request serialize_map_response
      in6_addr_at epoch_time pkt_buf in
  (∀ config,
     body config pkt_buf
     = if bool_decide (get_packet_type pkt_buf = MAP_REQUEST
                       ∧ Pcpd.config_map_support config = true)
       then Some answer else None)
  ∧ (get_packet_type pkt_buf ≠ MAP_REQUEST → ∀ config, body config pkt_buf = None)
  ∧ (∀ b, ∃ config,
       pcp_config_changed Pcpd.pcp_config (map_support_set d b) (Some Pcpd.callbacks)
         (Some (CONFIG_PATH, Some MAP_SUPPORT_KEY)) (config_of_db o d)
       = C.Returns (true, config)
       ∧ body config pkt_buf
         = if b && bool_decide (get_packet_type pkt_buf = MAP_REQUEST)
           then Some answer else None).
Proof.
  intros body answer. subst body answer. unfold Pcpd.main_loop_body.
  split; [|split].
  - intros config.
    destruct (decide (get_packet_type pkt_buf = MAP_REQUEST)) as [Ht|Ht];
      destruct (decide (Pcpd.config_map_support config = true)) as [Hs|Hs].
    + by rewrite !bool_decide_eq_true_2.
    + rewrite (bool_decide_eq_false_2 _ Hs), andb_false_r.
      rewrite bool_decide_eq_false_2; [done | by intros [_ ?]].
    + rewrite (bool_decide_eq_false_2 _ Ht). simpl.
      rewrite bool_decide_eq_false_2; [done | by intros [? _]].
    + rewrite (bool_decide_eq_false_2 _ Ht). simpl.
      rewrite bool_decide_eq_false_2; [done | by intros [? _]].
  - intros Hne config. by rewrite bool_decide_eq_false_2.
  - intros b. eexists. split.
    + apply (config_changed_sync MAP_SUPPORT_KEY). unfold daemon_config_keys.
      by repeat constructor.
    + assert (Hget : Pcpd.config_map_support
                       (config_of_db o (apteryx_set_int d CONFIG_PATH MAP_SUPPORT_KEY
                                          (C.of_bool b))) = b).
      { simpl. unfold map_support_get. db_unfold. db_lookup. apply int_of_bool_is_1. }
      rewrite Hget. destruct b.
      * rewrite (bool_decide_eq_true_2 (true = true)) by done.
        by rewrite andb_true_r.
      * rewrite (bool_decide_eq_false_2 (false = true)) by done.
        by rewrite andb_false_r.
Qed.
